(** * Tic-tac-toe core of the calculator repository: winner detection and
      the minimax move search.

    Shallow embedding of [LINES], [checkWinner] and [bestMove] (with its
    inner closures [winnerCheck] and [minimax]) from
    [minimalistic_scientific_calculator_react.jsx].

    JavaScript arrays are lists of cells; a cell holding [null] or
    [undefined] is [None], a cell holding ["X"] or ["O"] is [Some X] or
    [Some O].  The search mutates one scratch array and backtracks.  It is
    embedded twice: threading the contents of that array through the
    calls, and on a heap of arrays passed by reference; the second is
    shown to compute what the first computes. *)

From Stdlib Require Import ZArith Lia.
From stdpp Require Import base decidable option list gmap.

(** * Part I: the program *)

(** ** Data model *)

Inductive Mark := X | O.

#[global] Instance Mark_eq_dec : EqDecision Mark.
Proof. solve_decision. Defined.

(** A board slot: [None] is an empty (falsy) slot. *)
Abbreviation cell := (option Mark).

Abbreviation board := (list cell).

(** [Boolean(v)] on a slot. *)
Definition truthy (c : cell) : bool :=
  match c with
  | Some _ => true
  | None => false
  end.

(** [bd[i]]: reading past the end yields [undefined], which is falsy. *)
Definition get (bd : board) (i : nat) : cell := default None (bd !! i).

(** [bd[i] = v]: inside the array the slot is overwritten; past the end
    JavaScript grows the array.  The slots in between are read back as
    [undefined], hence as [None] here.  The loop of [minimax] stays below
    index 9, so on a nine-cell board only the first case is taken. *)
Definition set (bd : board) (i : nat) (v : cell) : board :=
  if decide (i < length bd) then <[i:=v]> bd
  else bd ++ replicate (i - length bd) None ++ [v].

(** [b.every(Boolean)]. *)
Definition every_truthy (bd : board) : bool := forallb truthy bd.

Abbreviation line := (nat * nat * nat)%type.

Definition LINES : list line :=
  [ (0, 1, 2); (3, 4, 5); (6, 7, 8);
    (0, 3, 6); (1, 4, 7); (2, 5, 8);
    (0, 4, 8); (2, 4, 6) ].

(** The test [board[a] && board[a] === board[b] && board[a] === board[c]]. *)
Definition line_hit (bd : board) (l : line) : bool :=
  let '(a, b, c) := l in
  truthy (get bd a)
  && bool_decide (get bd a = get bd b)
  && bool_decide (get bd a = get bd c).

(** ** checkWinner *)

(** What [checkWinner] returns: [{winner, line}], [{winner: "draw"}] or
    [null]. *)
Inductive Verdict :=
| Win (winner : Mark) (l : line)
| Draw
| InProgress.

#[global] Instance Verdict_eq_dec : EqDecision Verdict.
Proof. solve_decision. Defined.

(** The [for (const [a, b, c] of LINES)] loop of [checkWinner]; [None]
    when the loop falls through.  A line that passes the test has a mark
    in its first cell, which is the winner returned. *)
Fixpoint first_line (bd : board) (ls : list line) : option (Mark * line) :=
  match ls with
  | [] => None
  | l :: rest =>
      if line_hit bd l then
        match get bd (l.1.1) with
        | Some m => Some (m, l)
        | None => first_line bd rest
        end
      else first_line bd rest
  end.

Definition checkWinner (bd : board) : Verdict :=
  match first_line bd LINES with
  | Some (m, l) => Win m l
  | None => if every_truthy bd then Draw else InProgress
  end.

(** ** bestMove, on the contents of the scratch array *)

(** What the inner [winnerCheck] returns: a mark, ["draw"] or [null]. *)
Inductive wres :=
| WMark (m : Mark)
| WDraw
| WNull.

#[global] Instance wres_eq_dec : EqDecision wres.
Proof. solve_decision. Defined.

(** The objects built by [minimax]: [{score}] at a leaf (reading [.i]
    gives [undefined]) and [{i, score}] for an explored cell. *)
Record node := { index : option nat; score : Z }.

Definition leaf (s : Z) : node := {| index := None; score := s |}.

(** How a call ends.  [TypeError] is what JavaScript raises when a
    property of [undefined] is read or destructured; [OutOfFuel] only
    bounds the recursion of the model. *)
Inductive result (A : Type) :=
| Ret (a : A)
| TypeError
| OutOfFuel.

Arguments Ret {A} a.
Arguments TypeError {A}.
Arguments OutOfFuel {A}.

(** One round of [for (const s of scores) if (better) best = s;]. *)
Definition pick_step (better : Z -> Z -> bool) (best s : node) : node :=
  if better (score s) (score best) then s else best.

(** [let best = scores[0]; for (const s of scores) ...; return best;]
    An empty [scores] gives [undefined]. *)
Definition pick (better : Z -> Z -> bool) (scores : list node) : option node :=
  match scores with
  | [] => None
  | s0 :: _ => Some (fold_left (pick_step better) scores s0)
  end.

(** Recursion budget used for [bestMove]: a board has nine cells. *)
Definition search_fuel : nat := 10.

Section BestMove.

(** The side the search is run for ([player] in the source). *)
Variable player : Mark.

Definition opponent : Mark := if decide (player = X) then O else X.

(** The [for] loop of [winnerCheck]. *)
Fixpoint first_mark (b : board) (ls : list line) : option Mark :=
  match ls with
  | [] => None
  | l :: rest =>
      if line_hit b l then
        match get b (l.1.1) with
        | Some m => Some m
        | None => first_mark b rest
        end
      else first_mark b rest
  end.

Definition winnerCheck (b : board) : wres :=
  match first_mark b LINES with
  | Some m => WMark m
  | None => if every_truthy b then WDraw else WNull
  end.

(** [turn === player ? opponent : player]. *)
Definition next_turn (turn : Mark) : Mark :=
  if decide (turn = player) then opponent else player.

(** The loop [for (let i = 0; i < 9; i++)] of [minimax], run over the
    indices [todo] still to visit: an empty cell is marked, searched by
    [rec], recorded in [scores] and emptied again. *)
Definition explore (rec : board -> result (option node * board)) (turn : Mark)
  : list nat -> board -> list node -> result (list node * board) :=
  fix go (todo : list nat) (bd : board) (scores : list node) :=
    match todo with
    | [] => Ret (scores, bd)
    | i :: rest =>
        if negb (truthy (get bd i)) then
          match rec (set bd i (Some turn)) with
          | Ret (Some n, bd') =>
              go rest (set bd' i None)
                 (scores ++ [ {| index := Some i; score := score n |} ])
          | Ret (None, _) => TypeError
          | TypeError => TypeError
          | OutOfFuel => OutOfFuel
          end
        else go rest bd scores
    end.

Fixpoint minimax (fuel : nat) (bd : board) (turn : Mark)
  : result (option node * board) :=
  match fuel with
  | 0 => OutOfFuel
  | S fuel' =>
      let res := winnerCheck bd in
      if decide (res = WMark player) then Ret (Some (leaf 1), bd)
      else if decide (res = WMark opponent) then Ret (Some (leaf (-1)), bd)
      else if decide (res = WDraw) then Ret (Some (leaf 0), bd)
      else
        match explore (fun b => minimax fuel' b (next_turn turn)) turn (seq 0 9) bd [] with
        | Ret (scores, bd') =>
            if decide (turn = player)
            then Ret (pick Z.gtb scores, bd')
            else Ret (pick Z.ltb scores, bd')
        | TypeError => TypeError
        | OutOfFuel => OutOfFuel
        end
  end.

(** [minimax([...board], player).i]; the spread copies the contents. *)
Definition bestMove (b : board) : result (option nat) :=
  match minimax search_fuel b player with
  | Ret (Some n, _) => Ret (index n)
  | Ret (None, _) => TypeError
  | TypeError => TypeError
  | OutOfFuel => OutOfFuel
  end.

End BestMove.

(** ** bestMove, on arrays passed by reference *)

(** Arrays live on a heap; [board] in [bestMove] and [bd] in [minimax]
    are addresses. *)
Abbreviation loc := nat.
Abbreviation heap := (gmap nat board).

(** The contents of the array at [a]. *)
Definition read (h : heap) (a : loc) : board := default [] (h !! a).

(** [arr[i] = v] for the array at [a]. *)
Definition write (h : heap) (a : loc) (i : nat) (v : cell) : heap :=
  <[a := set (read h a) i v]> h.

(** [[...arr]]: a new array with the contents [b], at an address no
    array of [h] uses. *)
Definition alloc (h : heap) (b : board) : loc * heap :=
  let a := fresh (dom h) in (a, <[a := b]> h).

Module OnHeap.

Section BestMove.

Variable player : Mark.

Definition explore (rec : heap -> heap * result (option node)) (bd : loc) (turn : Mark)
  : list nat -> heap -> list node -> heap * result (list node) :=
  fix go (todo : list nat) (h : heap) (scores : list node) :=
    match todo with
    | [] => (h, Ret scores)
    | i :: rest =>
        if negb (truthy (get (read h bd) i)) then
          match rec (write h bd i (Some turn)) with
          | (h', Ret (Some n)) =>
              go rest (write h' bd i None)
                 (scores ++ [ {| index := Some i; score := score n |} ])
          | (h', Ret None) => (h', TypeError)
          | (h', TypeError) => (h', TypeError)
          | (h', OutOfFuel) => (h', OutOfFuel)
          end
        else go rest h scores
    end.

Fixpoint minimax (fuel : nat) (bd : loc) (turn : Mark) (h : heap)
  : heap * result (option node) :=
  match fuel with
  | 0 => (h, OutOfFuel)
  | S fuel' =>
      let res := winnerCheck (read h bd) in
      if decide (res = WMark player) then (h, Ret (Some (leaf 1)))
      else if decide (res = WMark (opponent player)) then (h, Ret (Some (leaf (-1))))
      else if decide (res = WDraw) then (h, Ret (Some (leaf 0)))
      else
        match explore (minimax fuel' bd (next_turn player turn)) bd turn (seq 0 9) h [] with
        | (h', Ret scores) =>
            if decide (turn = player)
            then (h', Ret (pick Z.gtb scores))
            else (h', Ret (pick Z.ltb scores))
        | (h', TypeError) => (h', TypeError)
        | (h', OutOfFuel) => (h', OutOfFuel)
        end
  end.

(** [minimax([...board], player).i]: the search runs on a copy. *)
Definition bestMove (board : loc) (h : heap) : heap * result (option nat) :=
  let '(bd, h1) := alloc h (read h board) in
  match minimax search_fuel bd player h1 with
  | (h', Ret (Some n)) => (h', Ret (index n))
  | (h', Ret None) => (h', TypeError)
  | (h', TypeError) => (h', TypeError)
  | (h', OutOfFuel) => (h', OutOfFuel)
  end.

End BestMove.

End OnHeap.

(** ** The game component [ModernTicTacToe] *)

(** [mode]: ['cpu'] or ['local']. *)
Inductive Mode := cpu | local.

#[global] Instance Mode_eq_dec : EqDecision Mode.
Proof. solve_decision. Defined.

(** The constant [difficulty] of [makeAIMove]: ['easy'] or ['hard']. *)
Inductive Difficulty := easy | hard.

#[global] Instance Difficulty_eq_dec : EqDecision Difficulty.
Proof. solve_decision. Defined.

(** The [scores] object [{ X, O, draws }]. *)
Record tally := { tally_X : nat; tally_O : nat; tally_draws : nat }.

(** The state of the component: [board], [xIsNext], [history], [mode],
    [aiPlaysAs] and [scores]. *)
Record game := {
  st_board : board;
  st_xIsNext : bool;
  st_history : list board;
  st_mode : Mode;
  st_aiPlaysAs : Mark;
  st_scores : tally
}.

#[global] Instance tally_eq_dec : EqDecision tally.
Proof. solve_decision. Defined.

#[global] Instance game_eq_dec : EqDecision game.
Proof. solve_decision. Defined.

(** The values given to [useState]. *)
Definition initial_game : game :=
  {| st_board := replicate 9 None;
     st_xIsNext := true;
     st_history := [];
     st_mode := cpu;
     st_aiPlaysAs := O;
     st_scores := {| tally_X := 0; tally_O := 0; tally_draws := 0 |} |}.

(** [xIsNext ? "X" : "O"]. *)
Definition current (s : game) : Mark := if st_xIsNext s then X else O.

(** Whether [result], the memoised [checkWinner(board)], is truthy. *)
Definition finished (s : game) : bool :=
  match checkWinner (st_board s) with
  | InProgress => false
  | _ => true
  end.

Definition handleClick (i : nat) (s : game) : game :=
  if truthy (get (st_board s) i) || finished s then s
  else if bool_decide (st_mode s = cpu) && bool_decide (current s = st_aiPlaysAs s) then s
  else
    {| st_board := set (st_board s) i (Some (current s));
       st_xIsNext := negb (st_xIsNext s);
       st_history := st_history s ++ [st_board s];
       st_mode := st_mode s;
       st_aiPlaysAs := st_aiPlaysAs s;
       st_scores := st_scores s |}.

(** [board.map((v, idx) => (v ? null : idx)).filter((v) => v !== null)]. *)
Definition empty_indices (b : board) : list nat :=
  omap id (imap (fun idx v => if truthy v then None else Some idx) b).

Definition difficulty : Difficulty := hard.

(** [makeAIMove], with [r] the value of
    [Math.floor(Math.random() * empty.length)] should it be drawn.  An
    [idx] that is [undefined] makes [newBoard[idx] = player] set no
    cell. *)
Definition makeAIMove (r : nat) (s : game) : result game :=
  let player := st_aiPlaysAs s in
  let empty := empty_indices (st_board s) in
  if bool_decide (length empty = 0) then Ret s
  else
    let chosen : result (option nat) :=
      if decide (difficulty = easy) then Ret (empty !! r)
      else
        match bestMove player (st_board s) with
        | Ret None => Ret (empty !! r)
        | Ret (Some k) =>
            if truthy (get (st_board s) k) then Ret (empty !! r) else Ret (Some k)
        | TypeError => TypeError
        | OutOfFuel => OutOfFuel
        end in
    match chosen with
    | Ret idx =>
        Ret {| st_board := match idx with
                           | Some k => set (st_board s) k (Some player)
                           | None => st_board s
                           end;
               st_xIsNext := negb (st_xIsNext s);
               st_history := st_history s ++ [st_board s];
               st_mode := st_mode s;
               st_aiPlaysAs := st_aiPlaysAs s;
               st_scores := st_scores s |}
    | TypeError => TypeError
    | OutOfFuel => OutOfFuel
    end.

(** The condition under which the effect schedules [makeAIMove]:
    [mode === "cpu"], [current === aiPlaysAs] and [!result]. *)
Definition ai_due (s : game) : bool :=
  bool_decide (st_mode s = cpu)
  && bool_decide (current s = st_aiPlaysAs s)
  && negb (finished s).

Definition resetBoard (full : bool) (s : game) : game :=
  {| st_board := replicate 9 None;
     st_xIsNext := true;
     st_history := [];
     st_mode := st_mode s;
     st_aiPlaysAs := st_aiPlaysAs s;
     st_scores := if full then {| tally_X := 0; tally_O := 0; tally_draws := 0 |}
                  else st_scores s |}.

(** [undo]: [history[history.length - 1]] is [undefined] on an empty
    history; [h.slice(0, -1)] drops the last entry. *)
Definition undo (s : game) : game :=
  match last (st_history s) with
  | None => s
  | Some b =>
      {| st_board := b;
         st_xIsNext := negb (st_xIsNext s);
         st_history := take (length (st_history s) - 1) (st_history s);
         st_mode := st_mode s;
         st_aiPlaysAs := st_aiPlaysAs s;
         st_scores := st_scores s |}
  end.

(** [setMode(m)] and [setAiPlaysAs(a)], called from the buttons. *)
Definition setMode (m : Mode) (s : game) : game :=
  {| st_board := st_board s; st_xIsNext := st_xIsNext s; st_history := st_history s;
     st_mode := m; st_aiPlaysAs := st_aiPlaysAs s; st_scores := st_scores s |}.

Definition setAiPlaysAs (a : Mark) (s : game) : game :=
  {| st_board := st_board s; st_xIsNext := st_xIsNext s; st_history := st_history s;
     st_mode := st_mode s; st_aiPlaysAs := a; st_scores := st_scores s |}.

(** ** The calculator component [MinimalScientificCalculator] *)

(** A JavaScript string, as its UTF-16 code units. *)
Abbreviation str := (list N).

(** ["Error"] and ["Math Error"]. *)
Definition str_Error : str := [69; 114; 114; 111; 114]%N.
Definition str_Math_Error : str := [77; 97; 116; 104; 32; 69; 114; 114; 111; 114]%N.

(** The labels [handleButton] switches on: ["C"], ["⌫"] (U+232B), ["="]
    and ["±"] (U+00B1). *)
Definition btn_C : str := [67]%N.
Definition btn_back : str := [9003]%N.
Definition btn_eq : str := [61]%N.
Definition btn_pm : str := [177]%N.

(** ["Enter"] and ["Backspace"], as [e.key] reports them. *)
Definition key_Enter : str := [69; 110; 116; 101; 114]%N.
Definition key_Backspace : str := [66; 97; 99; 107; 115; 112; 97; 99; 101]%N.

(** ["0123456789+-*/()^.,%"]. *)
Definition allowed : str :=
  [48; 49; 50; 51; 52; 53; 54; 55; 56; 57; 43; 45; 42; 47; 40; 41; 94; 46; 44; 37]%N.

(** [\d]. *)
Definition is_digit (c : N) : bool := ((48 <=? c) && (c <=? 57))%N.

(** [[a-zA-Z]]. *)
Definition is_letter (c : N) : bool :=
  (((65 <=? c) && (c <=? 90)) || ((97 <=? c) && (c <=? 122)))%N.

(** The code units [.] does not match: LF, CR, U+2028 and U+2029. *)
Definition line_terminator (c : N) : bool :=
  ((c =? 10) || (c =? 13) || (c =? 8232) || (c =? 8233))%N.

(** The digits [\d*] takes, greedily, leaving the rest. *)
Fixpoint skip_digits (r : str) : str :=
  match r with
  | c :: t => if is_digit c then skip_digits t else r
  | [] => []
  end.

(** [[-]?] at the start of [r]: a minus there is taken. *)
Definition strip_minus (r : str) : str :=
  match r with
  | c :: t => if (c =? 45)%N then t else r
  | [] => []
  end.

(** Whether [\d*\.?\d+$] matches [r] from its first code unit to its
    end: digits only, or digits (possibly none), a dot and digits. *)
Definition unsigned_to_end (r : str) : bool :=
  match skip_digits r with
  | [] => negb (bool_decide (r = []))
  | c :: d2 => (c =? 46)%N && negb (bool_decide (d2 = [])) && forallb is_digit d2
  end.

(** Whether [[-]?\d*\.?\d+$] matches [r] from its first code unit to
    its end. *)
Definition number_to_end (r : str) : bool := unsigned_to_end (strip_minus r).

(** [(.*?)([-]?\d*\.?\d+)$] tried at the start of [s]: the lazy group
    takes as few code units as possible, none of them a line terminator.
    The result is the pair of the two groups. *)
Fixpoint lazy_head (s : str) : option (str * str) :=
  match s with
  | [] => None
  | c :: t =>
      if number_to_end (c :: t) then Some ([], c :: t)
      else if line_terminator c then None
      else match lazy_head t with
           | Some (h, n) => Some (c :: h, n)
           | None => None
           end
  end.

(** [s.match(/(.*?)([-]?\d*\.?\d+)$/)]: the match at the first index at
    which there is one. *)
Fixpoint match_trailing_number (s : str) : option (str * str) :=
  match lazy_head s with
  | Some m => Some m
  | None =>
      match s with
      | [] => None
      | _ :: t => match_trailing_number t
      end
  end.

(** The updater of the ["±"] case. *)
Definition toggle_sign (s : str) : str :=
  match s with
  | [] => [45%N]
  | _ =>
      match match_trailing_number s with
      | None => s
      | Some (head, num) =>
          match num with
          | c :: rest =>
              if (c =? 45)%N then head ++ rest
              else head ++ [40%N] ++ [45%N] ++ num ++ [41%N]
          | [] => head ++ [40%N] ++ [45%N] ++ num ++ [41%N]
          end
      end
  end.

(** The state [handleButton] and [handleKeyDown] work on: [expr],
    [output], [degMode] and [history], whose rows [{in, out}] are
    pairs. *)
Record calc := {
  c_expr : str;
  c_output : str;
  c_degMode : bool;
  c_history : list (str * str)
}.

Definition initial_calc : calc :=
  {| c_expr := []; c_output := []; c_degMode := true; c_history := [] |}.

(** What reaches the component: a button, a key pressed in the input,
    a change of the input's text, the DEG/RAD checkbox. *)
Inductive calc_event :=
| Button (v : str)
| Key (k : str)
| Change (value : str)
| ToggleDeg.

Section Calculator.

(** [evaluateExpr] hands the text to [new Function] and returns the
    result as a string; the JavaScript engine that evaluates it is not
    part of this development.  The first argument is [degMode], which the
    functions in [scope] read. *)
Variable evaluateExpr : bool -> str -> str.

Definition handleButton (v : str) (s : calc) : calc :=
  if decide (v = btn_C) then
    {| c_expr := []; c_output := []; c_degMode := c_degMode s; c_history := c_history s |}
  else if decide (v = btn_back) then
    {| c_expr := take (length (c_expr s) - 1) (c_expr s); c_output := c_output s;
       c_degMode := c_degMode s; c_history := c_history s |}
  else if decide (v = btn_eq) then
    let res := evaluateExpr (c_degMode s) (c_expr s) in
    if decide (res <> str_Error /\ res <> str_Math_Error /\ res <> []) then
      {| c_expr := res; c_output := res; c_degMode := c_degMode s;
         c_history := take 20 ((c_expr s, res) :: c_history s) |}
    else
      {| c_expr := c_expr s; c_output := res; c_degMode := c_degMode s;
         c_history := c_history s |}
  else if decide (v = btn_pm) then
    {| c_expr := toggle_sign (c_expr s); c_output := c_output s;
       c_degMode := c_degMode s; c_history := c_history s |}
  else
    {| c_expr := c_expr s ++ v; c_output := c_output s;
       c_degMode := c_degMode s; c_history := c_history s |}.

Definition handleKeyDown (key : str) (s : calc) : calc :=
  if decide (key = key_Enter) then handleButton btn_eq s
  else if decide (key = key_Backspace) then handleButton btn_back s
  else
    match key with
    | [c] =>
        if bool_decide (c ∈ allowed) || is_letter c then
          {| c_expr := c_expr s ++ key; c_output := c_output s;
             c_degMode := c_degMode s; c_history := c_history s |}
        else s
    | _ => s
    end.

Definition calc_step (s : calc) (e : calc_event) : calc :=
  match e with
  | Button v => handleButton v s
  | Key k => handleKeyDown k s
  | Change value =>
      {| c_expr := value; c_output := c_output s;
         c_degMode := c_degMode s; c_history := c_history s |}
  | ToggleDeg =>
      {| c_expr := c_expr s; c_output := c_output s;
         c_degMode := negb (c_degMode s); c_history := c_history s |}
  end.

End Calculator.

(** * Part II: the notions the properties are stated with *)

(** All three cells of the line hold the mark [m]. *)
Definition complete (bd : board) (l : line) (m : Mark) : Prop :=
  get bd (l.1.1) = Some m /\ get bd (l.1.2) = Some m /\ get bd (l.2) = Some m.

(** The indices the loop of [minimax] finds empty, in the order it visits
    them. *)
Definition empties (bd : board) : list nat :=
  filter (fun i => get bd i = None) (seq 0 9).

Definition count_empty (bd : board) : nat := length (empties bd).

(** A call that raises instead of returning. *)
Definition fails {A : Type} (r : result A) : Prop := forall v, r <> Ret v.

(** What a line of [m] is worth to [player]. *)
Definition leaf_score (player m : Mark) : Z :=
  if decide (m = player) then 1%Z else (-1)%Z.

(** The score in the node a call of [minimax] returns. *)
Definition score_of (player : Mark) (fuel : nat) (bd : board) (turn : Mark) : Z :=
  match minimax player fuel bd turn with
  | Ret (Some n, _) => score n
  | _ => 0%Z
  end.

(** The entries the loop pushes on [scores]: one per empty cell, with
    the score of the search below it. *)
Definition children (player : Mark) (fuel : nat) (bd : board) (turn : Mark) : list node :=
  map (fun i => {| index := Some i;
                   score := score_of player fuel (set bd i (Some turn))
                              (next_turn player turn) |})
      (empties bd).

(** The selection that ends [minimax]. *)
Definition select (player turn : Mark) : list node -> option node :=
  if decide (turn = player) then pick Z.gtb else pick Z.ltb.

(** The score of the position reached by marking cell [i] for [player],
    as the search sees it. *)
Definition move_score (player : Mark) (bd : board) (i : nat) : Z :=
  score_of player search_fuel (set bd i (Some player)) (opponent player).

(** [guarantees player v bd turn]: with [turn] to move on [bd], [player]
    has a way of playing that ends, whatever the other side does, in a
    position worth at least [v] to [player]: [1] for a line of [player],
    [-1] for a line of the other side, [0] for a draw.  The end of the
    game is decided by [checkWinner]. *)
Inductive guarantees (player : Mark) (v : Z) : board -> Mark -> Prop :=
| g_won (bd : board) turn m l :
    checkWinner bd = Win m l ->
    (v <= leaf_score player m)%Z ->
    guarantees player v bd turn
| g_drawn (bd : board) turn :
    checkWinner bd = Draw ->
    (v <= 0)%Z ->
    guarantees player v bd turn
| g_mine (bd : board) i :
    checkWinner bd = InProgress ->
    i < 9 -> get bd i = None ->
    guarantees player v (set bd i (Some player)) (opponent player) ->
    guarantees player v bd player
| g_theirs (bd : board) :
    checkWinner bd = InProgress ->
    (forall i, i < 9 -> get bd i = None ->
       guarantees player v (set bd i (Some (opponent player))) player) ->
    guarantees player v bd (opponent player).

(** A search with early exit deciding [guarantees]: [player] looks for
    one cell that works, the other side must fail with every cell. *)
Fixpoint holds (player : Mark) (v : Z) (fuel : nat) (bd : board) (turn : Mark) : bool :=
  match fuel with
  | 0 => false
  | S fuel' =>
      match checkWinner bd with
      | Win m _ => (v <=? leaf_score player m)%Z
      | Draw => (v <=? 0)%Z
      | InProgress =>
          if decide (turn = player)
          then existsb (fun i => holds player v fuel' (set bd i (Some player)) (opponent player))
                       (empties bd)
          else forallb (fun i => holds player v fuel' (set bd i (Some (opponent player))) player)
                       (empties bd)
      end
  end.

(** [replay player bd turn bd']: [bd'] is reached from [bd], with [turn]
    to move, when [player] plays the move [bestMove] returns on each of
    its turns and the other side plays any empty cell on its own. *)
Inductive replay (player : Mark) : board -> Mark -> board -> Prop :=
| replay_here (bd : board) turn :
    replay player bd turn bd
| replay_search (bd : board) i bd' :
    checkWinner bd = InProgress ->
    bestMove player bd = Ret (Some i) ->
    replay player (set bd i (Some player)) (opponent player) bd' ->
    replay player bd player bd'
| replay_other (bd : board) i bd' :
    checkWinner bd = InProgress ->
    i < 9 -> get bd i = None ->
    replay player (set bd i (Some (opponent player))) player bd' ->
    replay player bd (opponent player) bd'.

(** Both sides play the move [bestMove] returns for them until
    [checkWinner] reports the end of the game; [None] when a call does not
    return a cell or [moves] runs out. *)
Fixpoint selfplay (moves : nat) (bd : board) (turn : Mark) : option Verdict :=
  match checkWinner bd with
  | InProgress =>
      match moves with
      | 0 => None
      | S moves' =>
          match bestMove turn bd with
          | Ret (Some i) => selfplay moves' (set bd i (Some turn)) (opponent turn)
          | _ => None
          end
      end
  | v => Some v
  end.

(** Some empty cell completes a line of [player] at once. *)
Definition has_winning_move (player : Mark) (bd : board) : bool :=
  existsb (fun i => match checkWinner (set bd i (Some player)) with
                    | Win m _ => bool_decide (m = player)
                    | _ => false
                    end)
          (empties bd).

(** [refines h bd hr pr]: the call on the heap [h], working on the array
    at [bd], ends as the call on the contents does, and when that one
    returns the contents [b'] the heap is [h] with [b'] at [bd]. *)
Definition refines {A : Type} (h : heap) (bd : loc)
           (hr : heap * result A) (pr : result (A * board)) : Prop :=
  match pr with
  | Ret (a, b') => hr = (<[bd := b']> h, Ret a)
  | TypeError => hr.2 = TypeError
  | OutOfFuel => hr.2 = OutOfFuel
  end.

(** ** Boards used below *)

Definition empty_board : board := replicate 9 None.

(** [X] at 0, [O] at 3 and 4. *)
Definition threat_board : board :=
  [Some X; None; None; Some O; Some O; None; None; None; None].

(** Rows 0 and 1 both completed. *)
Definition double_won : board :=
  [Some X; Some X; Some X; Some O; Some O; Some O; None; None; None].

(** Full, without a completed line. *)
Definition drawn_board : board :=
  [Some X; Some O; Some X; Some X; Some O; Some O; Some O; Some X; Some X].

(** [X] follows [bestMove] (cells 0, 3, 4, 5) against [O] playing 1, 6
    and 2. *)
Definition won_board : board :=
  [Some X; Some O; Some O; Some X; Some X; Some X; Some O; None; None].

Definition caller_heap : heap := {[ 0 := threat_board ]}.

(** ** The game component: what the user and the timer can do *)

(** The number of cells holding [m]. *)
Definition count_mark (m : Mark) (b : board) : nat :=
  length (filter (fun c => c = Some m) b).

(** One event of a game: a click on one of the rendered cells, the
    timer of the effect running [makeAIMove] (it is scheduled only while
    [ai_due] holds, and cancelled when the state changes), Undo, or one of
    the two reset buttons. *)
Inductive play_step : game -> game -> Prop :=
| play_click i s :
    i < length (st_board s) -> play_step s (handleClick i s)
| play_ai r s s' :
    ai_due s = true -> makeAIMove r s = Ret s' -> play_step s s'
| play_undo s :
    play_step s (undo s)
| play_reset full s :
    play_step s (resetBoard full s).

(** One event of the component: an event of a game, or a change of mode
    or of the side the computer plays. *)
Inductive step : game -> game -> Prop :=
| step_play s s' : play_step s s' -> step s s'
| step_setMode m s : step s (setMode m s)
| step_setAiPlaysAs a s : step s (setAiPlaysAs a s).

(** The side that moves when [k] marks are on the board. *)
Definition mover (k : nat) : Mark := if Nat.even k then X else O.

(** A board with [k] marks placed in turn, [X] first. *)
Definition position_ok (k : nat) (b : board) : Prop :=
  length b = 9 /\
  count_mark X b + count_mark O b = k /\
  count_mark X b = count_mark O b + (if Nat.even k then 0 else 1).

(** The board, the turn and every board of the history are consistent
    with the number of moves made. *)
Definition game_ok (s : game) : Prop :=
  position_ok (length (st_history s)) (st_board s) /\
  st_xIsNext s = Nat.even (length (st_history s)) /\
  forall k b, st_history s !! k = Some b -> position_ok k b.

(** In a game against the computer playing [ai], the computer can still
    secure a draw on the board and on every board Undo can bring back. *)
Definition safe_for (ai : Mark) (s : game) : Prop :=
  st_mode s = cpu /\ st_aiPlaysAs s = ai /\
  st_xIsNext s = Nat.even (length (st_history s)) /\
  length (st_board s) = 9 /\
  guarantees ai 0 (st_board s) (mover (length (st_history s))) /\
  forall k b, st_history s !! k = Some b ->
              length b = 9 /\ guarantees ai 0 b (mover k).

(** A game in CPU mode with the computer playing [X], just reset. *)
Definition ai_first : game := resetBoard false (setAiPlaysAs X initial_game).

(** The game in which the computer, playing [X], took cells 0, 3, 4 and 5
    against 1, 6 and 2. *)
Definition lost_game : game :=
  {| st_board := [Some X; Some O; Some O; Some X; Some X; Some X; Some O; None; None];
     st_xIsNext := false;
     st_history :=
       [ [None; None; None; None; None; None; None; None; None];
         [Some X; None; None; None; None; None; None; None; None];
         [Some X; Some O; None; None; None; None; None; None; None];
         [Some X; Some O; None; Some X; None; None; None; None; None];
         [Some X; Some O; None; Some X; None; None; Some O; None; None];
         [Some X; Some O; None; Some X; Some X; None; Some O; None; None];
         [Some X; Some O; Some O; Some X; Some X; None; Some O; None; None] ];
     st_mode := cpu;
     st_aiPlaysAs := X;
     st_scores := {| tally_X := 0; tally_O := 0; tally_draws := 0 |} |}.

(** ** The calculator component: rows of the history *)

Section CalculatorHistory.

Variable evaluateExpr : bool -> str -> str.

(** At most twenty rows, each pairing a text with what [evaluateExpr]
    returned for it in one of the angle modes, none of them an error. *)
Definition history_ok (h : list (str * str)) : Prop :=
  length h <= 20 /\
  forall i o, (i, o) ∈ h ->
    o <> str_Error /\ o <> str_Math_Error /\ o <> [] /\
    exists deg, o = evaluateExpr deg i.

End CalculatorHistory.

(** * Part III: properties *)

(** ** Reading and writing cells *)

Lemma truthy_false (c : cell) : truthy c = false <-> c = None.
Proof. destruct c; simpl; split; congruence. Qed.

Lemma truthy_true (c : cell) : truthy c = true <-> exists m, c = Some m.
Proof.
  destruct c as [m|]; simpl; split; try congruence; eauto.
  intros [m Hm]; congruence.
Qed.

Lemma get_in_range (bd : board) i : i < length bd -> bd !! i = Some (get bd i).
Proof.
  intros Hi. unfold get.
  destruct (lookup_lt_is_Some_2 bd i Hi) as [c Hc]. rewrite Hc. reflexivity.
Qed.

Lemma get_past_end (bd : board) i : length bd <= i -> get bd i = None.
Proof. intros Hi. unfold get. now rewrite lookup_ge_None_2. Qed.

Lemma get_set_eq (bd : board) i v : get (set bd i v) i = v.
Proof.
  unfold get, set. destruct (decide (i < length bd)) as [Hi|Hi].
  - now rewrite list_lookup_insert_eq.
  - rewrite lookup_app_r by lia.
    rewrite lookup_app_r by (rewrite length_replicate; lia).
    rewrite length_replicate. now replace (i - length bd - (i - length bd)) with 0 by lia.
Qed.

Lemma get_set_ne (bd : board) i j v : i <> j -> get (set bd i v) j = get bd j.
Proof.
  intros Hne. unfold get, set. destruct (decide (i < length bd)) as [Hi|Hi].
  - now rewrite list_lookup_insert_ne.
  - destruct (decide (j < length bd)) as [Hj|Hj].
    + now rewrite lookup_app_l.
    + rewrite (lookup_ge_None_2 bd j) by lia.
      rewrite lookup_app_r by lia.
      destruct (decide (j - length bd < i - length bd)) as [Hlt|Hge].
      * rewrite lookup_app_l by (rewrite length_replicate; lia).
        rewrite lookup_replicate_2 by lia. reflexivity.
      * rewrite lookup_app_r by (rewrite length_replicate; lia).
        rewrite length_replicate.
        rewrite lookup_ge_None_2 by (simpl; lia). reflexivity.
Qed.

Lemma length_set (bd : board) i v : i < length bd -> length (set bd i v) = length bd.
Proof.
  intros Hi. unfold set. rewrite decide_True by exact Hi. apply length_insert.
Qed.

(** Marking an empty cell and emptying it again gives the array back. *)
Lemma set_restore (bd : board) i v :
  i < length bd -> get bd i = None -> set (set bd i v) i None = bd.
Proof.
  intros Hi Hnone. unfold set at 2. rewrite decide_True by exact Hi.
  unfold set. rewrite decide_True by (rewrite length_insert; exact Hi).
  rewrite list_insert_insert_eq. apply list_insert_id.
  rewrite (get_in_range bd i Hi). now rewrite Hnone.
Qed.

Lemma every_truthy_spec (bd : board) :
  every_truthy bd = true <-> forall i, i < length bd -> get bd i <> None.
Proof.
  unfold every_truthy. rewrite forallb_forall. split.
  - intros Hall i Hi Hnone.
    assert (Hin : In (get bd i) bd).
    { apply list_elem_of_In, list_elem_of_lookup. exists i. now apply get_in_range. }
    apply Hall in Hin. rewrite Hnone in Hin. discriminate.
  - intros Hall c Hin. apply list_elem_of_In, list_elem_of_lookup in Hin.
    destruct Hin as [i Hi].
    assert (Hlt : i < length bd) by (apply lookup_lt_is_Some; eauto).
    specialize (Hall i Hlt). unfold get in Hall. rewrite Hi in Hall. simpl in Hall.
    destruct c; [reflexivity | congruence].
Qed.

Lemma every_truthy_false (bd : board) :
  every_truthy bd = false <-> exists i, i < length bd /\ get bd i = None.
Proof.
  split.
  - intros Hf. unfold every_truthy in Hf.
    induction bd as [|c bd IH]; simpl in Hf; [discriminate|].
    apply andb_false_iff in Hf. destruct Hf as [Hc|Hrest].
    + exists 0. split; [simpl; lia|]. apply truthy_false in Hc. now subst c.
    + destruct (IH Hrest) as (i & Hi & Hg). exists (S i). split; [simpl; lia|exact Hg].
  - intros (i & Hi & Hg). destruct (every_truthy bd) eqn:E; [|reflexivity].
    exfalso. rewrite every_truthy_spec in E. exact (E i Hi Hg).
Qed.

(** ** Completed lines *)

Lemma line_hit_true (bd : board) (l : line) :
  line_hit bd l = true <-> exists m, complete bd l m.
Proof.
  destruct l as [[a b] c]. unfold line_hit, complete. simpl.
  rewrite !andb_true_iff, !bool_decide_eq_true, truthy_true. split.
  - intros [[[m Hm] Hb] Hc]. exists m. repeat split; congruence.
  - intros (m & Ha & Hb & Hc). repeat split; [eauto|congruence|congruence].
Qed.

Lemma complete_functional (bd : board) l m m' :
  complete bd l m -> complete bd l m' -> m = m'.
Proof. intros [H _] [H' _]. congruence. Qed.

Lemma first_line_None (bd : board) ls :
  first_line bd ls = None <-> forall l m, l ∈ ls -> ~ complete bd l m.
Proof.
  induction ls as [|l ls IH]; simpl.
  - split; [|reflexivity]. intros _ l m Hin. inversion Hin.
  - destruct (line_hit bd l) eqn:Hhit.
    + apply line_hit_true in Hhit. destruct Hhit as [m Hm].
      pose proof Hm as [Ha _]. rewrite Ha. split; [discriminate|].
      intros Hall. exfalso. apply (Hall l m); [left|exact Hm].
    + rewrite IH. split.
      * intros Hall l' m' Hin Hc. apply elem_of_cons in Hin. destruct Hin as [->|Hin].
        -- assert (line_hit bd l = true) by (apply line_hit_true; eauto). congruence.
        -- exact (Hall l' m' Hin Hc).
      * intros Hall l' m' Hin. apply Hall. now right.
Qed.

Lemma first_line_Some (bd : board) ls m l :
  first_line bd ls = Some (m, l) <->
  exists pre post, ls = pre ++ l :: post /\ complete bd l m /\
                   forall l' m', l' ∈ pre -> ~ complete bd l' m'.
Proof.
  revert m l. induction ls as [|l0 ls IH]; intros m l; simpl.
  - split; [discriminate|]. intros (pre & post & He & _). now destruct pre.
  - destruct (line_hit bd l0) eqn:Hhit.
    + apply line_hit_true in Hhit. destruct Hhit as [m0 Hm0].
      pose proof Hm0 as [Ha _]. rewrite Ha. split.
      * intros [= <- <-]. exists [], ls. repeat split; try apply Hm0.
        intros l' m' Hin. inversion Hin.
      * intros (pre & post & He & Hc & Hpre). destruct pre as [|p pre]; simpl in He.
        -- injection He as -> _. f_equal. f_equal. eapply complete_functional; eauto.
        -- injection He as -> _. exfalso. apply (Hpre p m0); [left|exact Hm0].
    + rewrite IH. split.
      * intros (pre & post & -> & Hc & Hpre). exists (l0 :: pre), post.
        repeat split; try apply Hc.
        intros l' m' Hin Hc'. apply elem_of_cons in Hin. destruct Hin as [->|Hin].
        -- assert (line_hit bd l0 = true) by (apply line_hit_true; eauto). congruence.
        -- exact (Hpre l' m' Hin Hc').
      * intros (pre & post & He & Hc & Hpre). destruct pre as [|p pre]; simpl in He.
        -- injection He as -> _.
           assert (line_hit bd l = true) by (apply line_hit_true; eauto). congruence.
        -- injection He as -> ->. exists pre, post. repeat split; try apply Hc.
           intros l' m' Hin. apply Hpre. now right.
Qed.

Lemma checkWinner_Win (bd : board) m l :
  checkWinner bd = Win m l <-> first_line bd LINES = Some (m, l).
Proof.
  unfold checkWinner. destruct (first_line bd LINES) as [[m' l']|].
  - split; congruence.
  - destruct (every_truthy bd); split; discriminate.
Qed.

Lemma checkWinner_no_line (bd : board) :
  (forall l m, l ∈ LINES -> ~ complete bd l m) ->
  checkWinner bd = if every_truthy bd then Draw else InProgress.
Proof.
  intros Hno. apply first_line_None in Hno. unfold checkWinner. now rewrite Hno.
Qed.

(** C2. On any list of cells in which some line of [LINES] is completed
    by a mark, [checkWinner] returns [Win m l] for the first completed
    line [l] in the order of [LINES] and the mark [m] on it; boards won
    twice over are included. *)
Theorem checkWinner_first_completed_line (bd : board) :
  (exists l m, l ∈ LINES /\ complete bd l m) ->
  exists pre l post m,
    LINES = pre ++ l :: post /\
    complete bd l m /\
    (forall l' m', l' ∈ pre -> ~ complete bd l' m') /\
    checkWinner bd = Win m l.
Proof.
  intros (l0 & m0 & Hin & Hc).
  destruct (first_line bd LINES) as [[m l]|] eqn:E.
  - pose proof E as E'. apply first_line_Some in E'.
    destruct E' as (pre & post & He & Hcl & Hpre).
    exists pre, l, post, m. repeat split; try apply Hcl; try assumption.
    now apply checkWinner_Win.
  - exfalso. rewrite first_line_None in E. exact (E l0 m0 Hin Hc).
Qed.

Lemma checkWinner_first_completed_line_witness :
  exists pre l post m,
    LINES = pre ++ l :: post /\
    complete double_won l m /\
    (forall l' m', l' ∈ pre -> ~ complete double_won l' m') /\
    checkWinner double_won = Win m l.
Proof.
  apply (checkWinner_first_completed_line double_won).
  exists (3, 4, 5), O. split.
  - unfold LINES. right. left.
  - repeat split; reflexivity.
Defined.

(** C3. On a nine-cell board without a completed line, [checkWinner]
    returns [Draw] when every cell is occupied and [InProgress] when
    some cell is empty. *)
Theorem checkWinner_no_completed_line (bd : board) :
  length bd = 9 ->
  (forall l m, l ∈ LINES -> ~ complete bd l m) ->
  ((forall i, i < 9 -> get bd i <> None) -> checkWinner bd = Draw) /\
  ((exists i, i < 9 /\ get bd i = None) -> checkWinner bd = InProgress).
Proof.
  intros Hlen Hno. rewrite (checkWinner_no_line bd Hno). split.
  - intros Hfull. rewrite <- Hlen in Hfull. apply every_truthy_spec in Hfull.
    now rewrite Hfull.
  - intros Hex. rewrite <- Hlen in Hex. apply every_truthy_false in Hex.
    now rewrite Hex.
Qed.

Lemma checkWinner_no_completed_line_witness :
  checkWinner drawn_board = Draw /\ checkWinner threat_board = InProgress.
Proof.
  split.
  - apply (checkWinner_no_completed_line drawn_board).
    + reflexivity.
    + apply first_line_None. reflexivity.
    + intros i Hi. do 9 (destruct i as [|i]; [discriminate|]). lia.
  - apply (checkWinner_no_completed_line threat_board).
    + reflexivity.
    + apply first_line_None. reflexivity.
    + exists 1. split; [lia|reflexivity].
Defined.

(** ** The two marks *)

Lemma opponent_ne (player : Mark) : opponent player <> player.
Proof. destruct player; unfold opponent; simpl; congruence. Qed.

Lemma mark_cases (player m : Mark) : m = player \/ m = opponent player.
Proof. destruct player, m; unfold opponent; simpl; auto. Qed.

Lemma next_turn_player (player : Mark) : next_turn player player = opponent player.
Proof. unfold next_turn. now rewrite decide_True. Qed.

Lemma next_turn_opponent (player : Mark) : next_turn player (opponent player) = player.
Proof. unfold next_turn. rewrite decide_False; [reflexivity | apply opponent_ne]. Qed.

(** ** winnerCheck agrees with checkWinner *)

Lemma first_mark_first_line (bd : board) ls :
  first_mark bd ls = fst <$> first_line bd ls.
Proof.
  induction ls as [|l ls IH]; simpl; [reflexivity|].
  destruct (line_hit bd l); [|exact IH].
  destruct (get bd (l.1.1)); [reflexivity|exact IH].
Qed.

Lemma winnerCheck_checkWinner (bd : board) :
  winnerCheck bd =
  match checkWinner bd with
  | Win m _ => WMark m
  | Draw => WDraw
  | InProgress => WNull
  end.
Proof.
  unfold winnerCheck, checkWinner. rewrite first_mark_first_line.
  destruct (first_line bd LINES) as [[m l]|]; simpl; [reflexivity|].
  now destruct (every_truthy bd).
Qed.

(** ** Empty cells *)

Lemma elem_of_empties (bd : board) i : i ∈ empties bd <-> i < 9 /\ get bd i = None.
Proof.
  unfold empties. rewrite list_elem_of_filter, elem_of_seq. split.
  - intros [Hg Hi]. split; [lia|exact Hg].
  - intros [Hi Hg]. split; [exact Hg|lia].
Qed.

Lemma count_empty_le (bd : board) : count_empty bd <= 9.
Proof.
  unfold count_empty, empties.
  etransitivity; [apply length_filter|]. now rewrite length_seq.
Qed.

Lemma filter_length_lt {A} (P Q : A -> Prop)
      `{!forall x, Decision (P x)} `{!forall x, Decision (Q x)} (l : list A) (a : A) :
  (forall x, Q x -> P x) -> a ∈ l -> P a -> ~ Q a ->
  length (filter Q l) < length (filter P l).
Proof.
  intros Himp Hin Hp Hq.
  assert (Hle : forall l', length (filter Q l') <= length (filter P l')).
  { induction l' as [|x l' IH]; [reflexivity|].
    rewrite !filter_cons. destruct (decide (Q x)) as [Hx|Hx].
    - rewrite decide_True by auto. simpl. lia.
    - destruct (decide (P x)); simpl; lia. }
  induction l as [|x l IH]; [inversion Hin|].
  rewrite !filter_cons. apply elem_of_cons in Hin. destruct Hin as [<-|Hin].
  - destruct (decide (Q a)); [contradiction|].
    destruct (decide (P a)); [|contradiction].
    simpl. specialize (Hle l). lia.
  - specialize (IH Hin). destruct (decide (Q x)) as [Hx|Hx].
    + rewrite decide_True by auto. simpl. lia.
    + destruct (decide (P x)); simpl; lia.
Qed.

(** Marking an empty cell leaves one empty cell less. *)
Lemma count_empty_set (bd : board) i m :
  i < 9 -> get bd i = None -> count_empty (set bd i (Some m)) < count_empty bd.
Proof.
  intros Hi Hg. unfold count_empty, empties.
  apply (filter_length_lt _ _ _ i).
  - intros j Hj. destruct (decide (i = j)) as [->|Hne].
    + rewrite get_set_eq in Hj. discriminate.
    + now rewrite get_set_ne in Hj.
  - apply elem_of_seq. lia.
  - exact Hg.
  - rewrite get_set_eq. discriminate.
Qed.

Lemma InProgress_has_empty (bd : board) :
  length bd = 9 -> checkWinner bd = InProgress -> exists i, i < 9 /\ get bd i = None.
Proof.
  intros Hlen Hp. unfold checkWinner in Hp.
  destruct (first_line bd LINES) as [[m l]|]; [discriminate|].
  destruct (every_truthy bd) eqn:E; [discriminate|].
  apply every_truthy_false in E. now rewrite Hlen in E.
Qed.

Lemma no_empty_terminal (bd : board) :
  (forall i, i < length bd -> get bd i <> None) -> checkWinner bd <> InProgress.
Proof.
  intros Hfull. apply every_truthy_spec in Hfull. unfold checkWinner.
  destruct (first_line bd LINES) as [[m l]|]; [discriminate|].
  rewrite Hfull. discriminate.
Qed.

(** ** The loop over the cells *)

(** When every search started from a marked cell returns a node and hands
    the array back as it received it, the loop records one entry per empty
    cell, in visiting order, and leaves the array as it found it. *)
Lemma explore_spec rec turn (sc : nat -> Z) todo (bd : board) scores :
  (forall i, i ∈ todo -> i < length bd) ->
  (forall i, i ∈ todo -> get bd i = None ->
     exists n, rec (set bd i (Some turn)) = Ret (Some n, set bd i (Some turn))
               /\ score n = sc i) ->
  explore rec turn todo bd scores =
  Ret (scores ++ map (fun i => {| index := Some i; score := sc i |})
                     (filter (fun i => get bd i = None) todo), bd).
Proof.
  revert scores. induction todo as [|i todo IH]; intros scores Hrange Hrec; simpl.
  - now rewrite app_nil_r.
  - assert (Hrange' : forall j, j ∈ todo -> j < length bd)
      by (intros j Hj; apply Hrange; now right).
    assert (Hrec' : forall j, j ∈ todo -> get bd j = None ->
              exists n, rec (set bd j (Some turn)) = Ret (Some n, set bd j (Some turn))
                        /\ score n = sc j)
      by (intros j Hj; apply Hrec; now right).
    rewrite filter_cons. destruct (decide (get bd i = None)) as [Hg|Hg].
    + rewrite Hg. simpl.
      destruct (Hrec i ltac:(left) Hg) as (n & Hn & Hs).
      rewrite Hn, Hs. rewrite set_restore by (auto; apply Hrange; left).
      rewrite (IH _ Hrange' Hrec'). simpl. now rewrite <- app_assoc.
    + destruct (get bd i) eqn:E; [|congruence]. simpl.
      apply (IH _ Hrange' Hrec').
Qed.

(** ** Selecting the best entry *)

Section Pick.

(** [key] orders the scores so that [better a b] means that [a] has the
    larger key: the identity when maximising, negation when minimising. *)
Variable better : Z -> Z -> bool.
Variable key : Z -> Z.
Hypothesis better_key : forall a b, better a b = true <-> (key b < key a)%Z.

Lemma fold_step_spec (l : list node) (b0 : node) :
  (key (score b0) <= key (score (fold_left (pick_step better) l b0)))%Z /\
  (forall s, s ∈ l -> (key (score s) <= key (score (fold_left (pick_step better) l b0)))%Z) /\
  (fold_left (pick_step better) l b0 = b0 \/
   exists pre post, l = pre ++ fold_left (pick_step better) l b0 :: post /\
     (key (score b0) < key (score (fold_left (pick_step better) l b0)))%Z /\
     forall s, s ∈ pre -> (key (score s) < key (score (fold_left (pick_step better) l b0)))%Z).
Proof.
  revert b0. induction l as [|x l IH]; intros b0; cbn [fold_left].
  - split; [lia|]. split; [|now left]. intros s Hs. inversion Hs.
  - assert (Hstep : pick_step better b0 x = if better (score x) (score b0) then x else b0)
      by reflexivity.
    specialize (IH (pick_step better b0 x)).
    destruct (better (score x) (score b0)) eqn:E;
      rewrite Hstep in IH |- *; destruct IH as (Hb & Hall & Hpos).
    + apply better_key in E. split; [lia|]. split.
      * intros s Hs. apply elem_of_cons in Hs. destruct Hs as [->|Hs]; auto.
      * right. destruct Hpos as [Hr|(pre & post & He & Hlt & Hpre)].
        -- exists [], l. simpl. rewrite Hr. split; [reflexivity|]. split; [exact E|].
           intros s Hs. inversion Hs.
        -- exists (x :: pre), post. split; [simpl; f_equal; exact He|]. split; [lia|].
           intros s Hs. apply elem_of_cons in Hs. destruct Hs as [->|Hs]; auto.
    + assert (Hxb : (key (score x) <= key (score b0))%Z).
      { destruct (Z_lt_le_dec (key (score b0)) (key (score x))) as [Hlt|Hle]; [|exact Hle].
        apply better_key in Hlt. congruence. }
      split; [exact Hb|]. split.
      * intros s Hs. apply elem_of_cons in Hs. destruct Hs as [->|Hs]; [lia|auto].
      * destruct Hpos as [Hr|(pre & post & He & Hlt & Hpre)]; [now left|].
        right. exists (x :: pre), post. split; [simpl; f_equal; exact He|].
        split; [exact Hlt|].
        intros s Hs. apply elem_of_cons in Hs. destruct Hs as [->|Hs]; [lia|auto].
Qed.

(** [pick] returns the first entry with the largest key. *)
Lemma pick_spec (scores : list node) :
  scores <> [] ->
  exists r pre post,
    pick better scores = Some r /\
    scores = pre ++ r :: post /\
    (forall s, s ∈ scores -> (key (score s) <= key (score r))%Z) /\
    (forall s, s ∈ pre -> (key (score s) < key (score r))%Z).
Proof.
  destruct scores as [|s0 rest]; [congruence|]. intros _.
  assert (Hs0 : pick_step better s0 s0 = s0).
  { unfold pick_step. destruct (better (score s0) (score s0)) eqn:E; [|reflexivity].
    apply better_key in E. lia. }
  change (pick better (s0 :: rest)) with (Some (fold_left (pick_step better) rest (pick_step better s0 s0))).
  rewrite Hs0.
  destruct (fold_step_spec rest s0) as (Hb & Hall & Hpos).
  exists (fold_left (pick_step better) rest s0).
  destruct Hpos as [Hr|(pre & post & Hrest & Hlt & Hpre)].
  - exists [], rest. rewrite Hr. simpl. split; [reflexivity|]. split; [reflexivity|].
    rewrite Hr in Hall. split.
    + intros s Hs. apply elem_of_cons in Hs. destruct Hs as [->|Hs]; [lia|auto].
    + intros s Hs. inversion Hs.
  - exists (s0 :: pre), post. split; [reflexivity|]. split.
    + simpl. f_equal. exact Hrest.
    + split.
      * intros s Hs. apply elem_of_cons in Hs. destruct Hs as [->|Hs]; [lia|auto].
      * intros s Hs. apply elem_of_cons in Hs. destruct Hs as [->|Hs]; [lia|auto].
Qed.

End Pick.

Lemma pick_max (scores : list node) :
  scores <> [] ->
  exists r pre post,
    pick Z.gtb scores = Some r /\
    scores = pre ++ r :: post /\
    (forall s, s ∈ scores -> (score s <= score r)%Z) /\
    (forall s, s ∈ pre -> (score s < score r)%Z).
Proof.
  apply (pick_spec Z.gtb (fun z => z)). intros a b. rewrite Z.gtb_ltb. apply Z.ltb_lt.
Qed.

Lemma pick_min (scores : list node) :
  scores <> [] ->
  exists r pre post,
    pick Z.ltb scores = Some r /\
    scores = pre ++ r :: post /\
    (forall s, s ∈ scores -> (score r <= score s)%Z) /\
    (forall s, s ∈ pre -> (score r < score s)%Z).
Proof.
  intros Hne.
  destruct (pick_spec Z.ltb Z.opp) with (scores := scores)
    as (r & pre & post & Hp & He & Hall & Hpre); [|exact Hne|].
  - intros a b. rewrite Z.ltb_lt. lia.
  - exists r, pre, post. split; [exact Hp|]. split; [exact He|]. split.
    + intros s Hs. specialize (Hall s Hs). lia.
    + intros s Hs. specialize (Hpre s Hs). lia.
Qed.

(** ** What a call of minimax computes *)

Section Search.

Variable player : Mark.

Lemma minimax_S fuel (bd : board) turn :
  minimax player (S fuel) bd turn =
  if decide (winnerCheck bd = WMark player) then Ret (Some (leaf 1), bd)
  else if decide (winnerCheck bd = WMark (opponent player)) then Ret (Some (leaf (-1)), bd)
  else if decide (winnerCheck bd = WDraw) then Ret (Some (leaf 0), bd)
  else
    match explore (fun b => minimax player fuel b (next_turn player turn))
                  turn (seq 0 9) bd [] with
    | Ret (scores, bd') =>
        if decide (turn = player)
        then Ret (pick Z.gtb scores, bd')
        else Ret (pick Z.ltb scores, bd')
    | TypeError => TypeError
    | OutOfFuel => OutOfFuel
    end.
Proof. reflexivity. Qed.

Lemma minimax_Win fuel (bd : board) turn m l :
  checkWinner bd = Win m l ->
  minimax player (S fuel) bd turn = Ret (Some (leaf (leaf_score player m)), bd).
Proof.
  intros Hw. rewrite minimax_S, winnerCheck_checkWinner, Hw. unfold leaf_score.
  destruct (decide (m = player)) as [->|Hne].
  - now rewrite decide_True.
  - rewrite decide_False by congruence.
    destruct (mark_cases player m) as [-> | ->]; [congruence|].
    now rewrite decide_True.
Qed.

Lemma minimax_Draw fuel (bd : board) turn :
  checkWinner bd = Draw ->
  minimax player (S fuel) bd turn = Ret (Some (leaf 0), bd).
Proof.
  intros Hd. rewrite minimax_S, winnerCheck_checkWinner, Hd.
  rewrite !decide_False by discriminate. now rewrite decide_True.
Qed.

Lemma minimax_step fuel (bd : board) turn :
  length bd = 9 ->
  checkWinner bd = InProgress ->
  (forall i, i < 9 -> get bd i = None ->
     exists n, minimax player fuel (set bd i (Some turn)) (next_turn player turn)
               = Ret (Some n, set bd i (Some turn))) ->
  minimax player (S fuel) bd turn = Ret (select player turn (children player fuel bd turn), bd).
Proof.
  intros Hlen Hp Hrec. rewrite minimax_S, winnerCheck_checkWinner, Hp.
  rewrite !decide_False by discriminate.
  rewrite (explore_spec _ turn
             (fun i => score_of player fuel (set bd i (Some turn)) (next_turn player turn))).
  - unfold select, children, empties. simpl app.
    now destruct (decide (turn = player)).
  - intros i Hi. apply elem_of_seq in Hi. lia.
  - intros i Hi Hg. apply elem_of_seq in Hi.
    destruct (Hrec i ltac:(lia) Hg) as [n Hn]. exists n. split; [exact Hn|].
    unfold score_of. now rewrite Hn.
Qed.

Lemma children_nonempty fuel (bd : board) turn :
  length bd = 9 -> checkWinner bd = InProgress -> children player fuel bd turn <> [].
Proof.
  intros Hlen Hp. destruct (InProgress_has_empty bd Hlen Hp) as (i & Hi & Hg).
  assert (Hin : i ∈ empties bd) by (apply elem_of_empties; auto).
  unfold children. destruct (empties bd); [inversion Hin|discriminate].
Qed.

Lemma select_Some turn (scores : list node) :
  scores <> [] -> exists r, select player turn scores = Some r /\ r ∈ scores.
Proof.
  intros Hne. unfold select. destruct (decide (turn = player)).
  - destruct (pick_max scores Hne) as (r & pre & post & Hr & He & _).
    exists r. split; [exact Hr|]. rewrite He. apply elem_of_app. right. left.
  - destruct (pick_min scores Hne) as (r & pre & post & Hr & He & _).
    exists r. split; [exact Hr|]. rewrite He. apply elem_of_app. right. left.
Qed.

(** With one unit of fuel per empty cell and one for the call itself,
    a search on a nine-cell board returns a node and hands the array
    back unchanged. *)
Lemma minimax_total fuel (bd : board) turn :
  length bd = 9 -> count_empty bd < fuel ->
  exists n, minimax player fuel bd turn = Ret (Some n, bd).
Proof.
  revert bd turn. induction fuel as [|fuel IH]; intros bd turn Hlen Hfuel; [lia|].
  destruct (checkWinner bd) as [m l| |] eqn:Hv.
  - rewrite (minimax_Win _ _ _ m l Hv). eauto.
  - rewrite (minimax_Draw _ _ _ Hv). eauto.
  - rewrite minimax_step; try assumption.
    + destruct (select_Some turn (children player fuel bd turn)) as (r & Hr & _).
      { now apply children_nonempty. }
      rewrite Hr. eauto.
    + intros i Hi Hg. apply IH.
      * rewrite length_set; lia.
      * pose proof (count_empty_set bd i turn Hi Hg). lia.
Qed.

Lemma minimax_InProgress fuel (bd : board) turn :
  length bd = 9 -> count_empty bd <= fuel ->
  checkWinner bd = InProgress ->
  minimax player (S fuel) bd turn = Ret (select player turn (children player fuel bd turn), bd).
Proof.
  intros Hlen Hfuel Hp. apply minimax_step; try assumption.
  intros i Hi Hg. apply minimax_total.
  - rewrite length_set; lia.
  - pose proof (count_empty_set bd i turn Hi Hg). lia.
Qed.

(** Fuel beyond the number of empty cells does not change the result. *)
Lemma minimax_fuel fuel fuel' (bd : board) turn :
  length bd = 9 -> count_empty bd < fuel -> count_empty bd < fuel' ->
  minimax player fuel bd turn = minimax player fuel' bd turn.
Proof.
  revert fuel' bd turn.
  induction fuel as [|fuel IH]; intros fuel' bd turn Hlen Hf Hf'; [lia|].
  destruct fuel' as [|fuel']; [lia|].
  destruct (checkWinner bd) as [m l| |] eqn:Hv.
  - now rewrite !(minimax_Win _ _ _ m l Hv).
  - now rewrite !(minimax_Draw _ _ _ Hv).
  - rewrite !minimax_InProgress by (assumption || lia).
    f_equal. f_equal. f_equal. unfold children. apply map_ext_in.
    intros i Hi. apply list_elem_of_In, elem_of_empties in Hi. destruct Hi as [Hi Hg].
    f_equal. unfold score_of. rewrite (IH fuel'); [reflexivity| | |].
    + rewrite length_set; lia.
    + pose proof (count_empty_set bd i turn Hi Hg). lia.
    + pose proof (count_empty_set bd i turn Hi Hg). lia.
Qed.

End Search.

(** ** The game the search is played on *)

Section Game.

Variable player : Mark.

Lemma guarantees_weaken v v' (bd : board) turn :
  (v' <= v)%Z -> guarantees player v bd turn -> guarantees player v' bd turn.
Proof.
  intros Hle Hg.
  induction Hg as [bd turn m l Hw Hv | bd turn Hd Hv | bd i Hp Hi Hg Hc IH | bd Hp Hall IH].
  - eapply g_won; eauto. lia.
  - apply g_drawn; auto. lia.
  - eapply g_mine; eauto.
  - apply g_theirs; auto.
Qed.

Lemma elem_of_children fuel (bd : board) turn r :
  r ∈ children player fuel bd turn <->
  exists i, i < 9 /\ get bd i = None /\
    r = {| index := Some i;
           score := score_of player fuel (set bd i (Some turn)) (next_turn player turn) |}.
Proof.
  unfold children. rewrite list_elem_of_In, in_map_iff. split.
  - intros (i & <- & Hin). apply list_elem_of_In, elem_of_empties in Hin.
    destruct Hin. eauto.
  - intros (i & Hi & Hg & ->). exists i. split; [reflexivity|].
    apply list_elem_of_In, elem_of_empties. auto.
Qed.

Lemma score_of_select fuel (bd : board) turn r :
  length bd = 9 -> count_empty bd <= fuel -> checkWinner bd = InProgress ->
  select player turn (children player fuel bd turn) = Some r ->
  score_of player (S fuel) bd turn = score r.
Proof.
  intros Hlen Hf Hp Hr. unfold score_of.
  rewrite minimax_InProgress by assumption. now rewrite Hr.
Qed.

(** The score a search returns is one [player] can secure. *)
Lemma minimax_sound fuel (bd : board) turn :
  length bd = 9 -> count_empty bd < fuel ->
  guarantees player (score_of player fuel bd turn) bd turn.
Proof.
  revert bd turn. induction fuel as [|fuel IH]; intros bd turn Hlen Hf; [lia|].
  destruct (checkWinner bd) as [m l| |] eqn:Hv.
  - unfold score_of. rewrite (minimax_Win _ _ _ _ m l Hv). simpl.
    eapply g_won; eauto. lia.
  - unfold score_of. rewrite (minimax_Draw _ _ _ _ Hv). simpl.
    apply g_drawn; auto. lia.
  - assert (Hne : children player fuel bd turn <> []) by now apply children_nonempty.
    destruct (select_Some player turn _ Hne) as (r & Hr & Hin).
    rewrite (score_of_select _ _ _ r) by (assumption || lia).
    destruct (mark_cases player turn) as [-> | ->].
    + apply elem_of_children in Hin. destruct Hin as (i & Hi & Hg & ->). simpl.
      rewrite next_turn_player. eapply g_mine; eauto. apply IH.
      * rewrite length_set; lia.
      * pose proof (count_empty_set bd i player Hi Hg). lia.
    + apply g_theirs; [exact Hv|]. intros i Hi Hg.
      unfold select in Hr. rewrite decide_False in Hr by apply opponent_ne.
      destruct (pick_min _ Hne) as (r' & pre & post & Hr' & _ & Hall & _).
      rewrite Hr in Hr'. injection Hr' as <-.
      eapply guarantees_weaken; [|apply (IH (set bd i (Some (opponent player))) player)].
      * specialize (Hall {| index := Some i;
                            score := score_of player fuel
                                       (set bd i (Some (opponent player)))
                                       (next_turn player (opponent player)) |}).
        rewrite next_turn_opponent in Hall. apply Hall.
        apply elem_of_children. exists i. rewrite next_turn_opponent. auto.
      * rewrite length_set; lia.
      * pose proof (count_empty_set bd i (opponent player) Hi Hg). lia.
Qed.

(** [player] cannot secure more than the score a search returns. *)
Lemma minimax_complete v (bd : board) turn :
  guarantees player v bd turn ->
  forall fuel, length bd = 9 -> count_empty bd < fuel ->
  (v <= score_of player fuel bd turn)%Z.
Proof.
  intros Hg.
  induction Hg as [bd turn m l Hw Hv | bd turn Hd Hv | bd i Hp Hi Hg Hc IH | bd Hp Hall IH];
    intros fuel Hlen Hf; (destruct fuel as [|fuel]; [lia|]).
  - unfold score_of. now rewrite (minimax_Win _ _ _ _ m l Hw).
  - unfold score_of. now rewrite (minimax_Draw _ _ _ _ Hd).
  - assert (Hne : children player fuel bd player <> []) by now apply children_nonempty.
    destruct (pick_max _ Hne) as (r & pre & post & Hr & _ & Hmax & _).
    rewrite (score_of_select _ _ _ r); try assumption; try lia.
    2:{ unfold select. now rewrite decide_True. }
    specialize (IH fuel).
    etransitivity; [apply IH|].
    + rewrite length_set; lia.
    + pose proof (count_empty_set bd i player Hi Hg). lia.
    + specialize (Hmax {| index := Some i;
                          score := score_of player fuel (set bd i (Some player))
                                     (next_turn player player) |}).
      rewrite next_turn_player in Hmax. apply Hmax.
      apply elem_of_children. exists i. rewrite next_turn_player. auto.
  - assert (Hne : children player fuel bd (opponent player) <> [])
      by now apply children_nonempty.
    destruct (select_Some player (opponent player) _ Hne) as (r & Hr & Hin).
    rewrite (score_of_select _ _ _ r); try assumption; try lia.
    apply elem_of_children in Hin. destruct Hin as (i & Hi & Hg & ->). simpl.
    rewrite next_turn_opponent. apply (IH i Hi Hg fuel).
    + rewrite length_set; lia.
    + pose proof (count_empty_set bd i (opponent player) Hi Hg). lia.
Qed.

(** ** The move returned at the root *)

Lemma filter_seq_before (P : nat -> Prop) `{!forall x, Decision (P x)} a n pre i post :
  filter P (seq a n) = pre ++ i :: post ->
  forall j, j ∈ filter P (seq a n) -> j < i -> j ∈ pre.
Proof.
  revert a pre. induction n as [|n IH]; intros a pre He j Hj Hlt.
  - simpl in He. now destruct pre.
  - simpl seq in He, Hj. rewrite filter_cons in He, Hj.
    destruct (decide (P a)) as [HP|HP].
    + destruct pre as [|p pre]; simpl in He.
      * injection He as -> _. apply elem_of_cons in Hj. destruct Hj as [->|Hj]; [lia|].
        apply list_elem_of_filter in Hj. destruct Hj as [_ Hj].
        apply elem_of_seq in Hj. lia.
      * injection He as -> He. apply elem_of_cons in Hj. destruct Hj as [->|Hj]; [left|].
        right. exact (IH _ _ He j Hj Hlt).
    + exact (IH _ _ He j Hj Hlt).
Qed.

Lemma move_score_fuel fuel (bd : board) i :
  length bd = 9 -> i < 9 -> get bd i = None -> count_empty bd <= fuel ->
  score_of player fuel (set bd i (Some player)) (opponent player) = move_score player bd i.
Proof.
  intros Hlen Hi Hg Hf. unfold move_score, score_of.
  pose proof (count_empty_set bd i player Hi Hg).
  pose proof (count_empty_le bd).
  rewrite (minimax_fuel player fuel search_fuel); [reflexivity| | |].
  - rewrite length_set; lia.
  - lia.
  - unfold search_fuel. lia.
Qed.

(** On a nine-cell board in progress [bestMove] returns an empty cell
    whose score is the score of the root, no empty cell scores higher,
    and every empty cell before it scores strictly lower. *)
Lemma bestMove_root (bd : board) :
  length bd = 9 -> checkWinner bd = InProgress ->
  exists i,
    bestMove player bd = Ret (Some i) /\
    i < 9 /\ get bd i = None /\
    score_of player search_fuel bd player = move_score player bd i /\
    (forall j, j < 9 -> get bd j = None -> (move_score player bd j <= move_score player bd i)%Z) /\
    (forall j, j < i -> get bd j = None -> (move_score player bd j < move_score player bd i)%Z).
Proof.
  intros Hlen Hp. pose proof (count_empty_le bd) as Hle.
  assert (Hne : children player 9 bd player <> []) by now apply children_nonempty.
  destruct (pick_max _ Hne) as (r & pre & post & Hr & He & Hmax & Hpre).
  assert (Hsel : select player player (children player 9 bd player) = Some r)
    by (unfold select; now rewrite decide_True).
  unfold children in He. apply map_eq_app in He.
  destruct He as (ipre & irest & Hemp & Hmpre & Hrest).
  apply map_eq_cons in Hrest. destruct Hrest as (i & ipost & -> & Hri & _).
  assert (Hin : i ∈ empties bd) by (rewrite Hemp; apply elem_of_app; right; left).
  apply elem_of_empties in Hin. destruct Hin as [Hi Hg].
  rewrite next_turn_player in Hri.
  rewrite (move_score_fuel 9 bd i) in Hri by assumption.
  exists i. split; [|split; [exact Hi|split; [exact Hg|split; [|split]]]].
  - unfold bestMove, search_fuel. rewrite minimax_InProgress by assumption.
    rewrite Hsel. now rewrite <- Hri.
  - unfold search_fuel at 1. rewrite (score_of_select 9 bd player r) by assumption.
    now rewrite <- Hri.
  - intros j Hj Hgj.
    specialize (Hmax {| index := Some j;
                        score := score_of player 9 (set bd j (Some player))
                                   (next_turn player player) |}).
    rewrite next_turn_player, (move_score_fuel 9 bd j) in Hmax by assumption.
    rewrite <- Hri in Hmax. apply Hmax.
    apply elem_of_children. exists j. rewrite next_turn_player.
    rewrite (move_score_fuel 9 bd j) by assumption. auto.
  - intros j Hj Hgj.
    assert (Hjpre : j ∈ ipre).
    { apply (filter_seq_before (fun k => get bd k = None) 0 9 ipre i ipost Hemp); [|exact Hj].
      apply elem_of_empties. split; [lia|exact Hgj]. }
    specialize (Hpre {| index := Some j;
                        score := score_of player 9 (set bd j (Some player))
                                   (next_turn player player) |}).
    rewrite next_turn_player, (move_score_fuel 9 bd j) in Hpre by (assumption || lia).
    rewrite <- Hri in Hpre. apply Hpre.
    rewrite <- Hmpre. apply list_elem_of_In, in_map_iff. exists j.
    split; [|now apply list_elem_of_In].
    rewrite next_turn_player. now rewrite (move_score_fuel 9 bd j) by (assumption || lia).
Qed.

End Game.

(** ** Playing the returned move *)

Section Replay.

Variable player : Mark.

(** The move [bestMove] returns keeps everything [player] could secure
    before it. *)
Lemma bestMove_secures (bd : board) :
  length bd = 9 -> checkWinner bd = InProgress ->
  exists i,
    bestMove player bd = Ret (Some i) /\ i < 9 /\ get bd i = None /\
    forall v, guarantees player v bd player ->
              guarantees player v (set bd i (Some player)) (opponent player).
Proof.
  intros Hlen Hp.
  destruct (bestMove_root player bd Hlen Hp) as (i & Hb & Hi & Hg & Hroot & _).
  exists i. repeat split; try assumption.
  intros v Hv. pose proof (count_empty_le bd) as Hle.
  apply (minimax_complete player v bd player Hv search_fuel) in Hlen as Hbound;
    [|unfold search_fuel; lia].
  rewrite Hroot in Hbound.
  apply (guarantees_weaken player (move_score player bd i)); [exact Hbound|].
  apply minimax_sound.
  - rewrite length_set; lia.
  - pose proof (count_empty_set bd i player Hi Hg). unfold search_fuel. lia.
Qed.

(** From a position in which [player] can secure a draw, no replay
    reaches a line of the other side. *)
Lemma replay_never_loses (bd : board) turn bd' :
  replay player bd turn bd' ->
  length bd = 9 -> guarantees player 0 bd turn ->
  forall m l, checkWinner bd' = Win m l -> m = player.
Proof.
  intros Hr.
  induction Hr as [bd turn | bd i bd' Hp Hb Hr IH | bd i bd' Hp Hi Hg Hr IH];
    intros Hlen Hsafe m l Hw.
  - inversion Hsafe as [bd0 t0 m0 l0 Hw0 Hv | bd0 t0 Hd Hv | bd0 i0 Hp0 | bd0 Hp0];
      subst; try congruence.
    rewrite Hw in Hw0. injection Hw0 as <- <-.
    unfold leaf_score in Hv. destruct (decide (m = player)); [assumption|lia].
  - destruct (bestMove_secures bd Hlen Hp) as (i' & Hb' & Hi & Hg & Hkeep).
    rewrite Hb in Hb'. injection Hb' as <-.
    assert (Hlen' : length (set bd i (Some player)) = 9) by (rewrite length_set; lia).
    exact (IH Hlen' (Hkeep 0%Z Hsafe) m l Hw).
  - assert (Hlen' : length (set bd i (Some (opponent player))) = 9)
      by (rewrite length_set; lia).
    refine (IH Hlen' _ m l Hw).
    inversion Hsafe as [bd0 t0 m0 l0 Hw0 Hv | bd0 t0 Hd Hv | bd0 i0 Hp0 Hi0 Hg0 Hc Hb0 Ht
                       | bd0 Hp0 Hall Hb0 Ht]; subst; try congruence.
    + exfalso. symmetry in Ht. exact (opponent_ne player Ht).
    + exact (Hall i Hi Hg).
Qed.

End Replay.

(** ** Terminal boards, the blocking move, termination and the scores list *)

(** On the full board without a line, [bestMove] does not raise: it
    returns [undefined]. *)
Lemma bestMove_terminal_returns_counterexample :
  checkWinner drawn_board = Draw /\
  (forall i, i < 9 -> get drawn_board i <> None) /\
  bestMove X drawn_board = Ret None /\
  ~ fails (bestMove X drawn_board).
Proof.
  split; [reflexivity|]. split.
  - intros i Hi. do 9 (destruct i as [|i]; [discriminate|]). lia.
  - split; [reflexivity|]. intros Hf. exact (Hf None eq_refl).
Qed.

(** C6, as amended.  On every board on which [checkWinner] reports a
    win or a draw, and so on every board without an empty cell,
    [bestMove] raises nothing and returns [undefined]: no cell index at
    all. *)
Theorem bestMove_terminal_undefined (player : Mark) (bd : board) :
  checkWinner bd <> InProgress \/ (forall i, i < length bd -> get bd i <> None) ->
  bestMove player bd = Ret None.
Proof.
  intros H.
  assert (Hterm : checkWinner bd <> InProgress).
  { destruct H as [H|H]; [exact H|]. now apply no_empty_terminal. }
  unfold bestMove, search_fuel.
  destruct (checkWinner bd) as [m l| |] eqn:Hv; [| |congruence].
  - now rewrite (minimax_Win _ _ _ _ m l Hv).
  - now rewrite (minimax_Draw _ _ _ _ Hv).
Qed.

Lemma bestMove_terminal_undefined_witness :
  bestMove O double_won = Ret None.
Proof.
  apply (bestMove_terminal_undefined O double_won).
  left. vm_compute. discriminate.
Defined.

(** C8.  On the board with [X] at 0 and [O] at 3 and 4, where no cell
    wins at once for [X] and [O] threatens to complete the line 3, 4, 5,
    [bestMove] for [X] returns 5. *)
Theorem bestMove_blocks_threat :
  has_winning_move X threat_board = false /\
  checkWinner (set threat_board 5 (Some O)) = Win O (3, 4, 5) /\
  bestMove X threat_board = Ret (Some 5).
Proof. repeat split; vm_compute; reflexivity. Qed.

(** C9.  [checkWinner] returns a verdict on every list of cells: a win
    on a line of [LINES], a draw, or a game in progress.  On every
    nine-cell board at most nine cells are empty, and [minimax] returns
    a node as soon as it may nest one call per empty cell below the
    first; so [bestMove], which allows ten, returns. *)
Theorem search_total :
  (forall bd : board,
      (exists m l, l ∈ LINES /\ checkWinner bd = Win m l)
      \/ checkWinner bd = Draw \/ checkWinner bd = InProgress) /\
  (forall (player : Mark) (bd : board) (turn : Mark),
      length bd = 9 ->
      count_empty bd <= 9 /\
      (forall fuel, count_empty bd < fuel ->
                    exists n, minimax player fuel bd turn = Ret (Some n, bd)) /\
      (exists r, bestMove player bd = Ret r)).
Proof.
  split.
  - intros bd. destruct (checkWinner bd) as [m l| |] eqn:Hv; auto.
    left. exists m, l. split; [|reflexivity].
    apply checkWinner_Win, first_line_Some in Hv.
    destruct Hv as (pre & post & -> & _). apply elem_of_app. right. left.
  - intros player bd turn Hlen. pose proof (count_empty_le bd) as Hle.
    split; [exact Hle|]. split.
    + intros fuel Hf. now apply minimax_total.
    + destruct (minimax_total player search_fuel bd player Hlen) as [n Hn].
      { unfold search_fuel. lia. }
      exists (index n). unfold bestMove. now rewrite Hn.
Qed.

Lemma search_total_witness :
  count_empty threat_board <= 9 /\
  (forall fuel, count_empty threat_board < fuel ->
                exists n, minimax X fuel threat_board O = Ret (Some n, threat_board)) /\
  (exists r, bestMove X threat_board = Ret r).
Proof.
  apply (proj2 search_total X threat_board O). reflexivity.
Defined.

Lemma explore_extends rec turn todo (bd : board) scores scores' bd' :
  explore rec turn todo bd scores = Ret (scores', bd') ->
  exists extra, scores' = scores ++ extra.
Proof.
  revert bd scores. induction todo as [|i todo IH]; intros bd scores He; simpl in He.
  - injection He as <- _. exists []. now rewrite app_nil_r.
  - destruct (negb (truthy (get bd i))).
    + destruct (rec (set bd i (Some turn))) as [[[n|] bd2]| |]; try discriminate.
      apply IH in He. destruct He as [extra ->].
      eexists. now rewrite <- app_assoc.
    + now apply IH in He.
Qed.

Lemma explore_nonempty rec turn todo (bd : board) scores scores' bd' :
  (exists i, i ∈ todo /\ get bd i = None) ->
  explore rec turn todo bd scores = Ret (scores', bd') ->
  scores' <> [].
Proof.
  revert bd scores. induction todo as [|i todo IH]; intros bd scores (j & Hj & Hg) He.
  - inversion Hj.
  - simpl in He. destruct (get bd i) as [m|] eqn:E; simpl in He.
    + apply (IH bd scores); [|exact He]. exists j. split; [|exact Hg].
      apply elem_of_cons in Hj. destruct Hj as [->|Hj]; [congruence|exact Hj].
    + destruct (rec (set bd i (Some turn))) as [[[n|] bd2]| |]; try discriminate.
      apply explore_extends in He. destruct He as [extra ->].
      intros Hnil. apply app_eq_nil in Hnil. destruct Hnil as [Hnil _].
      apply app_eq_nil in Hnil. destruct Hnil as [_ Hnil]. discriminate.
Qed.

Lemma pick_nonempty better (scores : list node) :
  scores <> [] -> exists best, pick better scores = Some best.
Proof. destruct scores; [congruence|]. intros _. simpl. eauto. Qed.

(** C10.  On a nine-cell board that [winnerCheck] does not end, some
    cell is empty, so whenever the loop of [minimax] completes, the list
    of scores it collected is not empty, both selections starting from its
    first entry return an entry, and [minimax] does not return
    [undefined]. *)
Theorem scores_never_empty (player : Mark) (fuel : nat) (bd : board) (turn : Mark) :
  length bd = 9 -> winnerCheck bd = WNull ->
  (exists i, i < 9 /\ get bd i = None) /\
  (forall scores bd',
      explore (fun b => minimax player fuel b (next_turn player turn))
              turn (seq 0 9) bd [] = Ret (scores, bd') ->
      scores <> [] /\
      (exists best, pick Z.gtb scores = Some best) /\
      (exists best, pick Z.ltb scores = Some best)) /\
  (forall bd', minimax player (S fuel) bd turn <> Ret (None, bd')).
Proof.
  intros Hlen Hnull.
  assert (Hp : checkWinner bd = InProgress).
  { rewrite winnerCheck_checkWinner in Hnull.
    destruct (checkWinner bd); [discriminate|discriminate|reflexivity]. }
  destruct (InProgress_has_empty bd Hlen Hp) as (i & Hi & Hg).
  assert (Hscores : forall scores bd',
             explore (fun b => minimax player fuel b (next_turn player turn))
                     turn (seq 0 9) bd [] = Ret (scores, bd') -> scores <> []).
  { intros scores bd'. apply explore_nonempty. exists i. split; [|exact Hg].
    apply elem_of_seq. lia. }
  split; [eauto|]. split.
  - intros scores bd' He. specialize (Hscores scores bd' He).
    split; [exact Hscores|]. split; now apply pick_nonempty.
  - intros bd' Hm. rewrite minimax_S, Hnull in Hm.
    rewrite !decide_False in Hm by discriminate.
    destruct (explore _ turn (seq 0 9) bd []) as [[scores bd2]| |] eqn:He; try discriminate.
    specialize (Hscores scores bd2 eq_refl).
    destruct (pick_nonempty Z.gtb scores Hscores) as [b1 Hb1].
    destruct (pick_nonempty Z.ltb scores Hscores) as [b2 Hb2].
    destruct (decide (turn = player)); congruence.
Qed.

Lemma scores_never_empty_witness :
  (exists i, i < 9 /\ get threat_board i = None) /\
  (forall scores bd',
      explore (fun b => minimax X 9 b (next_turn X X))
              X (seq 0 9) threat_board [] = Ret (scores, bd') ->
      scores <> [] /\
      (exists best, pick Z.gtb scores = Some best) /\
      (exists best, pick Z.ltb scores = Some best)) /\
  (forall bd', minimax X 10 threat_board X <> Ret (None, bd')).
Proof.
  apply (scores_never_empty X 9 threat_board X); reflexivity.
Defined.

(** ** The search on shared arrays *)

(** *** Reading and writing the heap *)

Lemma read_insert (h : heap) a b : read (<[a := b]> h) a = b.
Proof. unfold read. now rewrite lookup_insert_eq. Qed.

Lemma read_write (h : heap) a i v : read (write h a i v) a = set (read h a) i v.
Proof. unfold write. apply read_insert. Qed.

Lemma write_insert (h : heap) a b i v : write (<[a := b]> h) a i v = <[a := set b i v]> h.
Proof. unfold write. rewrite read_insert. apply insert_insert_eq. Qed.

Lemma insert_read (h : heap) a : is_Some (h !! a) -> <[a := read h a]> h = h.
Proof. intros [b Hb]. unfold read. rewrite Hb. simpl. now apply insert_id. Qed.

Lemma lookup_write_ne (h : heap) a a' i v : a' <> a -> write h a i v !! a' = h !! a'.
Proof. intros Hne. unfold write. now rewrite lookup_insert_ne. Qed.

(** *** The search writes to its own array only *)

Lemma explore_frame rec bd turn todo (h : heap) scores a :
  (forall h0, (rec h0).1 !! a = h0 !! a) ->
  a <> bd ->
  (OnHeap.explore rec bd turn todo h scores).1 !! a = h !! a.
Proof.
  intros Hrec Hne. revert h scores.
  induction todo as [|i todo IH]; intros h scores; simpl; [reflexivity|].
  destruct (negb (truthy (get (read h bd) i))); [|apply IH].
  pose proof (Hrec (write h bd i (Some turn))) as Hr.
  rewrite lookup_write_ne in Hr by exact Hne.
  destruct (rec (write h bd i (Some turn))) as [h' [[n|]| |]]; simpl in Hr |- *;
    try exact Hr.
  rewrite IH. rewrite lookup_write_ne by exact Hne. exact Hr.
Qed.

Lemma minimax_on_heap_S player fuel bd turn (h : heap) :
  OnHeap.minimax player (S fuel) bd turn h =
  if decide (winnerCheck (read h bd) = WMark player) then (h, Ret (Some (leaf 1)))
  else if decide (winnerCheck (read h bd) = WMark (opponent player))
       then (h, Ret (Some (leaf (-1))))
  else if decide (winnerCheck (read h bd) = WDraw) then (h, Ret (Some (leaf 0)))
  else
    match OnHeap.explore (OnHeap.minimax player fuel bd (next_turn player turn))
                         bd turn (seq 0 9) h [] with
    | (h', Ret scores) =>
        if decide (turn = player)
        then (h', Ret (pick Z.gtb scores))
        else (h', Ret (pick Z.ltb scores))
    | (h', TypeError) => (h', TypeError)
    | (h', OutOfFuel) => (h', OutOfFuel)
    end.
Proof. reflexivity. Qed.

Lemma minimax_frame player fuel bd turn (h : heap) a :
  a <> bd -> (OnHeap.minimax player fuel bd turn h).1 !! a = h !! a.
Proof.
  intros Hne. revert turn h. induction fuel as [|fuel IH]; intros turn h;
    [reflexivity|].
  rewrite minimax_on_heap_S.
  repeat (destruct (decide (winnerCheck _ = _)); [reflexivity|]).
  pose proof (explore_frame (OnHeap.minimax player fuel bd (next_turn player turn))
                bd turn (seq 0 9) h [] a (IH _) Hne) as He.
  destruct (OnHeap.explore _ bd turn (seq 0 9) h []) as [h' [scores| |]];
    simpl in He |- *; try exact He.
  now destruct (decide (turn = player)).
Qed.

(** *** The search on the heap computes what the search on the contents
    computes *)

Lemma refines_insert {A : Type} (h : heap) bd b (hr : heap * result A) pr :
  refines (<[bd := b]> h) bd hr pr -> refines h bd hr pr.
Proof.
  unfold refines. destruct pr as [[a b']| |]; auto.
  now rewrite insert_insert_eq.
Qed.

Lemma explore_refines rec_h rec_p bd turn todo :
  (forall h, is_Some (h !! bd) -> refines h bd (rec_h h) (rec_p (read h bd))) ->
  forall (h : heap) scores, is_Some (h !! bd) ->
    refines h bd (OnHeap.explore rec_h bd turn todo h scores)
            (explore rec_p turn todo (read h bd) scores).
Proof.
  intros Hrec. induction todo as [|i todo IH]; intros h scores Hsome; simpl.
  - now rewrite insert_read.
  - destruct (negb (truthy (get (read h bd) i))); [|now apply IH].
    assert (Hsome' : is_Some (write h bd i (Some turn) !! bd)).
    { unfold write. rewrite lookup_insert_eq. eauto. }
    pose proof (Hrec _ Hsome') as Hr. rewrite read_write in Hr.
    destruct (rec_p (set (read h bd) i (Some turn))) as [[[n|] b2]| |]; simpl in Hr.
    + rewrite Hr. unfold write at 2. rewrite insert_insert_eq, write_insert.
      apply (refines_insert h bd (set b2 i None)).
      pose proof (IH (<[bd := set b2 i None]> h)
                     (scores ++ [ {| index := Some i; score := score n |} ])) as IH'.
      rewrite read_insert in IH'. apply IH'. rewrite lookup_insert_eq. eauto.
    + rewrite Hr. reflexivity.
    + destruct (rec_h (write h bd i (Some turn))) as [h' r]. simpl in Hr. now subst r.
    + destruct (rec_h (write h bd i (Some turn))) as [h' r]. simpl in Hr. now subst r.
Qed.

Lemma minimax_refines player fuel bd turn (h : heap) :
  is_Some (h !! bd) ->
  refines h bd (OnHeap.minimax player fuel bd turn h)
          (minimax player fuel (read h bd) turn).
Proof.
  revert turn h. induction fuel as [|fuel IH]; intros turn h Hsome; [reflexivity|].
  rewrite minimax_S, minimax_on_heap_S.
  repeat (destruct (decide (winnerCheck _ = _)); [simpl; now rewrite insert_read|]).
  pose proof (explore_refines
                (OnHeap.minimax player fuel bd (next_turn player turn))
                (fun b => minimax player fuel b (next_turn player turn))
                bd turn (seq 0 9) (fun h0 => IH _ h0) h [] Hsome) as He.
  destruct (explore _ turn (seq 0 9) (read h bd) []) as [[scores b']| |];
    cbv beta iota delta [refines] in He |- *.
  - rewrite He. now destruct (decide (turn = player)).
  - destruct (OnHeap.explore _ bd turn (seq 0 9) h []) as [h' r].
    cbn [snd] in He. now subst r.
  - destruct (OnHeap.explore _ bd turn (seq 0 9) h []) as [h' r].
    cbn [snd] in He. now subst r.
Qed.

Lemma alloc_fresh (h : heap) b : h !! (alloc h b).1 = None.
Proof.
  unfold alloc. simpl. apply not_elem_of_dom. apply is_fresh.
Qed.

(** [bestMove] on the heap returns what [bestMove] on the contents of
    the caller's array returns. *)
Lemma bestMove_refines player board (h : heap) :
  (OnHeap.bestMove player board h).2 = bestMove player (read h board).
Proof.
  unfold OnHeap.bestMove, bestMove, alloc.
  set (bd := fresh (dom h)). set (h1 := <[bd := read h board]> h).
  pose proof (minimax_refines player search_fuel bd player h1) as Hr.
  assert (Hread : read h1 bd = read h board) by apply read_insert.
  rewrite Hread in Hr.
  assert (Hsome : is_Some (h1 !! bd)) by (unfold h1; rewrite lookup_insert_eq; eauto).
  specialize (Hr Hsome).
  destruct (minimax player search_fuel (read h board) player) as [[[n|] b']| |];
    cbv beta iota delta [refines] in Hr.
  - now rewrite Hr.
  - now rewrite Hr.
  - destruct (OnHeap.minimax player search_fuel bd player h1) as [h' r].
    cbn [snd] in Hr. now subst r.
  - destruct (OnHeap.minimax player search_fuel bd player h1) as [h' r].
    cbn [snd] in Hr. now subst r.
Qed.

(** Every array of the caller's heap is as it was when [bestMove]
    ends, however it ends. *)
Lemma bestMove_frame player board (h : heap) a :
  is_Some (h !! a) -> (OnHeap.bestMove player board h).1 !! a = h !! a.
Proof.
  intros Hsome. unfold OnHeap.bestMove, alloc.
  set (bd := fresh (dom h)). set (h1 := <[bd := read h board]> h).
  assert (Hne : a <> bd).
  { intros ->. pose proof (alloc_fresh h (read h board)) as Hf. simpl in Hf.
    fold bd in Hf. rewrite Hf in Hsome. now destruct Hsome. }
  pose proof (minimax_frame player search_fuel bd player h1 a Hne) as Hf.
  unfold h1 in Hf at 2. rewrite lookup_insert_ne in Hf by congruence.
  destruct (OnHeap.minimax player search_fuel bd player h1) as [h' [[n|]| |]];
    simpl in Hf |- *; exact Hf.
Qed.

Lemma explore_app rec bd turn todo1 todo2 (h : heap) scores :
  OnHeap.explore rec bd turn (todo1 ++ todo2) h scores =
  match OnHeap.explore rec bd turn todo1 h scores with
  | (h', Ret scores') => OnHeap.explore rec bd turn todo2 h' scores'
  | other => other
  end.
Proof.
  revert h scores. induction todo1 as [|i todo1 IH]; intros h scores; simpl;
    [reflexivity|].
  destruct (negb (truthy (get (read h bd) i))); [|apply IH].
  destruct (rec (write h bd i (Some turn))) as [h' [[n|]| |]]; try reflexivity.
  apply IH.
Qed.

(** With the array at [bd] holding a nine-cell board and fuel for the
    searches below it, the loop over the first [k] cells ends with the
    heap it started from: every mark placed has been taken back. *)
Lemma explore_restores player fuel bd turn (h : heap) (b : board) k :
  h !! bd = Some b -> length b = 9 -> count_empty b <= fuel -> k <= 9 ->
  exists scores,
    OnHeap.explore (OnHeap.minimax player fuel bd (next_turn player turn))
                   bd turn (seq 0 k) h [] = (h, Ret scores).
Proof.
  intros Hb Hlen Hf Hk.
  assert (Hsome : is_Some (h !! bd)) by eauto.
  assert (Hread : read h bd = b) by (unfold read; now rewrite Hb).
  pose proof (explore_refines
                (OnHeap.minimax player fuel bd (next_turn player turn))
                (fun b0 => minimax player fuel b0 (next_turn player turn))
                bd turn (seq 0 k)
                (fun h0 => minimax_refines player fuel bd (next_turn player turn) h0)
                h [] Hsome) as He.
  rewrite Hread in He.
  rewrite (explore_spec _ turn
             (fun i => score_of player fuel (set b i (Some turn)) (next_turn player turn)))
    in He.
  - cbv beta iota delta [refines] in He. rewrite (insert_id h bd b Hb) in He. eauto.
  - intros i Hi. apply elem_of_seq in Hi. lia.
  - intros i Hi Hg. apply elem_of_seq in Hi.
    destruct (minimax_total player fuel (set b i (Some turn)) (next_turn player turn))
      as [n Hn].
    + rewrite length_set; lia.
    + pose proof (count_empty_set b i turn ltac:(lia) Hg). lia.
    + exists n. split; [exact Hn|]. unfold score_of. now rewrite Hn.
Qed.

(** C7.  Whatever the caller's array holds and however [bestMove]
    ends, every array of the caller's heap, the board passed in among
    them, is afterwards what it was before.  Within the search on a
    nine-cell board, the loop reaches each cell [k] with the heap it
    started from: the marks placed for the cells before [k] have been
    taken back, and the remaining cells are explored from that heap. *)
Theorem search_leaves_board_unchanged :
  (forall (player : Mark) (board : loc) (h : heap) (a : loc),
      is_Some (h !! a) -> (OnHeap.bestMove player board h).1 !! a = h !! a) /\
  (forall (player : Mark) (fuel : nat) (bd : loc) (turn : Mark) (h : heap) (b : board) k,
      h !! bd = Some b -> length b = 9 -> count_empty b <= fuel -> k <= 9 ->
      exists scores,
        OnHeap.explore (OnHeap.minimax player fuel bd (next_turn player turn))
                       bd turn (seq 0 k) h [] = (h, Ret scores) /\
        OnHeap.explore (OnHeap.minimax player fuel bd (next_turn player turn))
                       bd turn (seq 0 9) h []
        = OnHeap.explore (OnHeap.minimax player fuel bd (next_turn player turn))
                         bd turn (seq k (9 - k)) h scores).
Proof.
  split.
  - intros player board h a. apply bestMove_frame.
  - intros player fuel bd turn h b k Hb Hlen Hf Hk.
    destruct (explore_restores player fuel bd turn h b k Hb Hlen Hf Hk) as [scores Hs].
    exists scores. split; [exact Hs|].
    replace 9 with (k + (9 - k)) at 1 by lia.
    rewrite seq_app, explore_app, Hs. reflexivity.
Qed.

Lemma search_leaves_board_unchanged_witness :
  (OnHeap.bestMove X 0 caller_heap).1 !! 0 = caller_heap !! 0 /\
  exists scores,
    OnHeap.explore (OnHeap.minimax X 6 0 (next_turn X X)) 0 X (seq 0 4) caller_heap []
    = (caller_heap, Ret scores) /\
    OnHeap.explore (OnHeap.minimax X 6 0 (next_turn X X)) 0 X (seq 0 9) caller_heap []
    = OnHeap.explore (OnHeap.minimax X 6 0 (next_turn X X)) 0 X (seq 4 (9 - 4))
                     caller_heap scores.
Proof.
  split.
  - apply (proj1 search_leaves_board_unchanged X 0 caller_heap 0).
    exists threat_board. reflexivity.
  - apply (proj2 search_leaves_board_unchanged X 6 0 X caller_heap threat_board 4).
    + reflexivity.
    + reflexivity.
    + vm_compute. lia.
    + lia.
Defined.

(** ** Deciding what can be secured *)

Lemma holds_sound (player : Mark) v fuel (bd : board) turn :
  holds player v fuel bd turn = true -> guarantees player v bd turn.
Proof.
  revert bd turn. induction fuel as [|fuel IH]; intros bd turn Hh; [discriminate|].
  cbn [holds] in Hh. destruct (checkWinner bd) as [m l| |] eqn:Hv.
  - apply Z.leb_le in Hh. eapply g_won; eauto.
  - apply Z.leb_le in Hh. now apply g_drawn.
  - destruct (decide (turn = player)) as [->|Hne].
    + apply existsb_exists in Hh. destruct Hh as (i & Hin & Hi).
      apply list_elem_of_In, elem_of_empties in Hin. destruct Hin as [Hlt Hg].
      eapply g_mine; eauto.
    + destruct (mark_cases player turn) as [-> | ->]; [congruence|].
      apply g_theirs; [exact Hv|]. intros i Hi Hg. apply IH.
      rewrite forallb_forall in Hh. apply Hh.
      apply list_elem_of_In, elem_of_empties. auto.
Qed.

Lemma holds_complete (player : Mark) v (bd : board) turn :
  guarantees player v bd turn ->
  forall fuel, length bd = 9 -> count_empty bd < fuel ->
  holds player v fuel bd turn = true.
Proof.
  intros Hg.
  induction Hg as [bd turn m l Hw Hv | bd turn Hd Hv | bd i Hp Hi Hg Hc IH | bd Hp Hall IH];
    intros fuel Hlen Hf; (destruct fuel as [|fuel]; [lia|]); cbn [holds].
  - rewrite Hw. now apply Z.leb_le.
  - rewrite Hd. now apply Z.leb_le.
  - rewrite Hp, decide_True by reflexivity.
    apply existsb_exists. exists i. split.
    + apply list_elem_of_In, elem_of_empties. auto.
    + apply IH.
      * rewrite length_set; lia.
      * pose proof (count_empty_set bd i player Hi Hg). lia.
  - rewrite Hp, decide_False by apply opponent_ne.
    apply forallb_forall. intros i Hin.
    apply list_elem_of_In, elem_of_empties in Hin. destruct Hin as [Hi Hg].
    apply IH; try assumption.
    + rewrite length_set; lia.
    + pose proof (count_empty_set bd i (opponent player) Hi Hg). lia.
Qed.

(** ** The empty board *)

Lemma holds_empty_X_X : holds X 0 search_fuel empty_board X = true.
Proof. lazy. reflexivity. Qed.

Lemma holds_empty_X_O : holds X 0 search_fuel empty_board O = true.
Proof. lazy. reflexivity. Qed.

Lemma holds_empty_O_X : holds O 0 search_fuel empty_board X = true.
Proof. lazy. reflexivity. Qed.

Lemma holds_empty_O_O : holds O 0 search_fuel empty_board O = true.
Proof. lazy. reflexivity. Qed.

Lemma holds_win_empty_X : holds X 1 search_fuel empty_board X = false.
Proof. lazy. reflexivity. Qed.

Lemma holds_win_empty_O : holds O 1 search_fuel empty_board O = false.
Proof. lazy. reflexivity. Qed.

Lemma holds_corner_X : holds X 0 search_fuel (set empty_board 0 (Some X)) O = true.
Proof. lazy. reflexivity. Qed.

Lemma holds_corner_O : holds O 0 search_fuel (set empty_board 0 (Some O)) X = true.
Proof. lazy. reflexivity. Qed.

(** Whoever moves first, either side can secure a draw from the empty
    board. *)
Lemma empty_board_draw (player turn : Mark) :
  guarantees player 0 empty_board turn.
Proof.
  apply (holds_sound player 0 search_fuel). destruct player, turn.
  - exact holds_empty_X_X.
  - exact holds_empty_X_O.
  - exact holds_empty_O_X.
  - exact holds_empty_O_O.
Qed.

(** The side moving first cannot force a win from the empty board. *)
Lemma empty_board_no_win (player : Mark) :
  ~ guarantees player 1 empty_board player.
Proof.
  intros Hg.
  assert (Hfuel : count_empty empty_board < search_fuel).
  { pose proof (count_empty_le empty_board). unfold search_fuel. lia. }
  pose proof (holds_complete player 1 empty_board player Hg search_fuel eq_refl Hfuel) as Hh.
  destruct player.
  - rewrite holds_win_empty_X in Hh. discriminate.
  - rewrite holds_win_empty_O in Hh. discriminate.
Qed.

Lemma bestMove_empty (player : Mark) : bestMove player empty_board = Ret (Some 0).
Proof.
  destruct (bestMove_root player empty_board eq_refl eq_refl)
    as (i & Hb & Hi & Hg & Hroot & _ & Hlow).
  assert (Hfuel : count_empty empty_board < search_fuel).
  { pose proof (count_empty_le empty_board). unfold search_fuel. lia. }
  assert (Hle : (score_of player search_fuel empty_board player <= 0)%Z).
  { destruct (Z_le_gt_dec (score_of player search_fuel empty_board player) 0)
      as [Hle|Hgt]; [exact Hle|].
    exfalso. apply (empty_board_no_win player).
    apply (guarantees_weaken player (score_of player search_fuel empty_board player));
      [lia|].
    now apply minimax_sound. }
  assert (Hcorner : (0 <= move_score player empty_board 0)%Z).
  { unfold move_score. apply minimax_complete.
    - apply (holds_sound player 0 search_fuel). destruct player.
      + exact holds_corner_X.
      + exact holds_corner_O.
    - reflexivity.
    - pose proof (count_empty_set empty_board 0 player ltac:(lia) eq_refl). lia. }
  destruct i as [|i]; [exact Hb|].
  specialize (Hlow 0 ltac:(lia) eq_refl). lia.
Qed.

(** ** Both sides following bestMove *)

Lemma guarantees_Win (player : Mark) v (bd : board) turn m l :
  guarantees player v bd turn -> checkWinner bd = Win m l ->
  (v <= leaf_score player m)%Z.
Proof.
  intros Hg Hw. destruct Hg; congruence.
Qed.

Lemma guarantees_theirs (player : Mark) v (bd : board) i :
  guarantees player v bd (opponent player) ->
  checkWinner bd = InProgress -> i < 9 -> get bd i = None ->
  guarantees player v (set bd i (Some (opponent player))) player.
Proof.
  intros Hg Hp Hi Hgi.
  inversion Hg as [bd0 t0 m0 l0 Hw0 Hv | bd0 t0 Hd Hv | bd0 i0 Hp0 Hi0 Hg0 Hc Hb0 Ht
                  | bd0 Hp0 Hall Hb0 Ht]; subst; try congruence.
  - exfalso. symmetry in Ht. exact (opponent_ne player Ht).
  - exact (Hall i Hi Hgi).
Qed.

Lemma opponent_involutive (m : Mark) : opponent (opponent m) = m.
Proof. now destruct m. Qed.

Lemma selfplay_draw moves (bd : board) turn :
  length bd = 9 -> count_empty bd <= moves ->
  guarantees turn 0 bd turn -> guarantees (opponent turn) 0 bd turn ->
  selfplay moves bd turn = Some Draw.
Proof.
  revert bd turn. induction moves as [|moves IH]; intros bd turn Hlen Hc Hmine Htheirs.
  - cbn [selfplay]. destruct (checkWinner bd) as [m l| |] eqn:Hv.
    + exfalso. pose proof (guarantees_Win _ _ _ _ m l Hmine Hv) as H1.
      pose proof (guarantees_Win _ _ _ _ m l Htheirs Hv) as H2.
      unfold leaf_score in H1, H2.
      destruct (decide (m = turn)) as [->|]; [|lia].
      rewrite decide_False in H2; [lia|]. intros Heq. symmetry in Heq.
      exact (opponent_ne turn Heq).
    + reflexivity.
    + exfalso. destruct (InProgress_has_empty bd Hlen Hv) as (i & Hi & Hg).
      assert (Hin : i ∈ empties bd) by (apply elem_of_empties; auto).
      unfold count_empty in Hc. destruct (empties bd); [inversion Hin|simpl in Hc; lia].
  - cbn [selfplay]. destruct (checkWinner bd) as [m l| |] eqn:Hv.
    + exfalso. pose proof (guarantees_Win _ _ _ _ m l Hmine Hv) as H1.
      pose proof (guarantees_Win _ _ _ _ m l Htheirs Hv) as H2.
      unfold leaf_score in H1, H2.
      destruct (decide (m = turn)) as [->|]; [|lia].
      rewrite decide_False in H2; [lia|]. intros Heq. symmetry in Heq.
      exact (opponent_ne turn Heq).
    + reflexivity.
    + destruct (bestMove_secures turn bd Hlen Hv) as (i & Hb & Hi & Hg & Hkeep).
      rewrite Hb. apply IH.
      * rewrite length_set; lia.
      * pose proof (count_empty_set bd i turn Hi Hg). lia.
      * pose proof (guarantees_theirs (opponent turn) 0 bd i) as Ht.
        rewrite opponent_involutive in Ht. now apply Ht.
      * rewrite opponent_involutive. now apply Hkeep.
Qed.

Lemma selfplay_empty (first : Mark) : selfplay 9 empty_board first = Some Draw.
Proof.
  apply selfplay_draw.
  - reflexivity.
  - apply count_empty_le.
  - apply empty_board_draw.
  - apply empty_board_draw.
Qed.

(** ** Optimal play *)

(** C1. On every nine-cell board on which [checkWinner] reports a game
    in progress (such a board has an empty cell), [bestMove] returns a
    cell after which the searching side still secures at least a draw
    whenever it could secure one before, and still forces a win whenever
    it could force one before.  From the empty board, with either side
    searching and either side moving first, no line of play in which the
    searching side follows [bestMove] ends in a line of the other side,
    and the game in which both sides follow [bestMove] ends in a draw. *)
Theorem bestMove_optimal :
  (forall (player : Mark) (bd : board),
      length bd = 9 -> checkWinner bd = InProgress ->
      exists i,
        bestMove player bd = Ret (Some i) /\
        (guarantees player 0 bd player ->
         guarantees player 0 (set bd i (Some player)) (opponent player)) /\
        (guarantees player 1 bd player ->
         guarantees player 1 (set bd i (Some player)) (opponent player))) /\
  (forall (player first : Mark) (bd' : board) m l,
      replay player empty_board first bd' ->
      checkWinner bd' = Win m l -> m = player) /\
  (forall first : Mark, selfplay 9 empty_board first = Some Draw).
Proof.
  split; [|split].
  - intros player bd Hlen Hp.
    destruct (bestMove_secures player bd Hlen Hp) as (i & Hb & _ & _ & Hkeep).
    exists i. split; [exact Hb|]. split; apply Hkeep.
  - intros player first bd' m l Hr Hw.
    exact (replay_never_loses player empty_board first bd' Hr eq_refl
             (empty_board_draw player first) m l Hw).
  - apply selfplay_empty.
Qed.

Lemma replay_won_board : replay X empty_board X won_board.
Proof.
  apply (replay_search X empty_board 0); [reflexivity|apply bestMove_empty|].
  apply (replay_other X _ 1); [reflexivity|lia|reflexivity|].
  apply (replay_search X _ 3); [reflexivity|vm_compute; reflexivity|].
  apply (replay_other X _ 6); [reflexivity|lia|reflexivity|].
  apply (replay_search X _ 4); [reflexivity|vm_compute; reflexivity|].
  apply (replay_other X _ 2); [reflexivity|lia|reflexivity|].
  apply (replay_search X _ 5); [reflexivity|vm_compute; reflexivity|].
  apply replay_here.
Qed.

Lemma bestMove_optimal_witness :
  (exists i,
      bestMove X threat_board = Ret (Some i) /\
      (guarantees X 0 threat_board X ->
       guarantees X 0 (set threat_board i (Some X)) (opponent X)) /\
      (guarantees X 1 threat_board X ->
       guarantees X 1 (set threat_board i (Some X)) (opponent X))) /\
  X = X.
Proof.
  split.
  - apply (proj1 bestMove_optimal X threat_board); reflexivity.
  - apply (proj1 (proj2 bestMove_optimal) X X won_board X (3, 4, 5)).
    + exact replay_won_board.
    + reflexivity.
Defined.

(** C4. On every nine-cell board in progress [bestMove] returns an
    empty cell whose score no empty cell exceeds and which every empty
    cell of lower index falls strictly short of: among the cells with the
    best score it is the one of lowest index.  On the empty board that
    cell is cell 0, for either side. *)
Theorem bestMove_lowest_optimal :
  (forall (player : Mark) (bd : board),
      length bd = 9 -> checkWinner bd = InProgress ->
      exists i,
        bestMove player bd = Ret (Some i) /\
        i < 9 /\ get bd i = None /\
        (forall j, j < 9 -> get bd j = None ->
                   (move_score player bd j <= move_score player bd i)%Z) /\
        (forall j, j < i -> get bd j = None ->
                   (move_score player bd j < move_score player bd i)%Z)) /\
  (forall player : Mark, bestMove player empty_board = Ret (Some 0)).
Proof.
  split.
  - intros player bd Hlen Hp.
    destruct (bestMove_root player bd Hlen Hp) as (i & Hb & Hi & Hg & _ & Hmax & Hlow).
    exists i. auto.
  - apply bestMove_empty.
Qed.

Lemma bestMove_lowest_optimal_witness :
  exists i,
    bestMove X threat_board = Ret (Some i) /\
    i < 9 /\ get threat_board i = None /\
    (forall j, j < 9 -> get threat_board j = None ->
               (move_score X threat_board j <= move_score X threat_board i)%Z) /\
    (forall j, j < i -> get threat_board j = None ->
               (move_score X threat_board j < move_score X threat_board i)%Z).
Proof.
  apply (proj1 bestMove_lowest_optimal X threat_board); reflexivity.
Defined.

(** C5. On every nine-cell board in progress, for either side,
    [bestMove] returns an index between 0 and 8 whose cell is empty. *)
Theorem bestMove_returns_empty_cell (player : Mark) (bd : board) :
  length bd = 9 -> checkWinner bd = InProgress ->
  exists i, bestMove player bd = Ret (Some i) /\ 0 <= i <= 8 /\ get bd i = None.
Proof.
  intros Hlen Hp.
  destruct (bestMove_root player bd Hlen Hp) as (i & Hb & Hi & Hg & _).
  exists i. split; [exact Hb|]. split; [lia|exact Hg].
Qed.

Lemma bestMove_returns_empty_cell_witness :
  exists i, bestMove O threat_board = Ret (Some i) /\ 0 <= i <= 8 /\ get threat_board i = None.
Proof.
  apply (bestMove_returns_empty_cell O threat_board); reflexivity.
Defined.

(** ** Verdicts, read backwards *)

(** X1.  Whatever [checkWinner] returns is backed by the board: a win
    names a line of [LINES] whose three cells hold the winner, with no
    completed line before it; a draw means no cell is empty and no line
    is completed; a game in progress has an empty cell and no completed
    line. *)
Theorem checkWinner_verdict_backed (bd : board) :
  match checkWinner bd with
  | Win m l =>
      exists pre post, LINES = pre ++ l :: post /\ complete bd l m /\
                       forall l' m', l' ∈ pre -> ~ complete bd l' m'
  | Draw =>
      (forall i, i < length bd -> get bd i <> None) /\
      forall l m, l ∈ LINES -> ~ complete bd l m
  | InProgress =>
      (exists i, i < length bd /\ get bd i = None) /\
      forall l m, l ∈ LINES -> ~ complete bd l m
  end.
Proof.
  unfold checkWinner. destruct (first_line bd LINES) as [[m l]|] eqn:E.
  - now apply first_line_Some.
  - rewrite first_line_None in E. destruct (every_truthy bd) eqn:F.
    + split; [now apply every_truthy_spec|exact E].
    + split; [now apply every_truthy_false|exact E].
Qed.

(** X2.  The winner check written out again inside [bestMove] never
    disagrees with [checkWinner]: it returns the winner's mark exactly
    when [checkWinner] reports a win of that mark, ["draw"] exactly on a
    draw and [null] exactly on a game in progress. *)
Theorem winnerCheck_agrees (bd : board) :
  (forall m, winnerCheck bd = WMark m <-> exists l, checkWinner bd = Win m l) /\
  (winnerCheck bd = WDraw <-> checkWinner bd = Draw) /\
  (winnerCheck bd = WNull <-> checkWinner bd = InProgress).
Proof.
  rewrite winnerCheck_checkWinner. destruct (checkWinner bd) as [m0 l0| |].
  - split; [|split; split; discriminate].
    intros m. split.
    + intros [= ->]. eauto.
    + intros [l [= -> _]]. reflexivity.
  - split; [|split; split; (reflexivity || discriminate)].
    intros m. split; [discriminate|]. intros [l Hl]. discriminate.
  - split; [|split; split; (reflexivity || discriminate)].
    intros m. split; [discriminate|]. intros [l Hl]. discriminate.
Qed.

(** ** The scores of the search *)

(** X3.  On a nine-cell board, a search with fuel for its empty cells
    returns a node whose score is -1, 0 or 1; on a finished board the
    node carries no cell, and its score is 1 for a line of [player], -1
    for a line of the other side and 0 for a draw, whoever is to move. *)
Theorem minimax_score_range (player : Mark) (fuel : nat) (bd : board) (turn : Mark) :
  length bd = 9 -> count_empty bd < fuel ->
  exists n,
    minimax player fuel bd turn = Ret (Some n, bd) /\
    (score n = (-1)%Z \/ score n = 0%Z \/ score n = 1%Z) /\
    match checkWinner bd with
    | Win m _ => index n = None /\ score n = (if decide (m = player) then 1 else -1)%Z
    | Draw => index n = None /\ score n = 0%Z
    | InProgress => exists i, index n = Some i /\ i < 9 /\ get bd i = None
    end.
Proof.
  revert bd turn. induction fuel as [|fuel IH]; intros bd turn Hlen Hf; [lia|].
  destruct (checkWinner bd) as [m l| |] eqn:Hv.
  - rewrite (minimax_Win player fuel bd turn m l Hv). eexists. split; [reflexivity|].
    unfold leaf_score. simpl. destruct (decide (m = player)); auto.
  - rewrite (minimax_Draw player fuel bd turn Hv). eexists. split; [reflexivity|].
    simpl. auto.
  - rewrite minimax_InProgress by (assumption || lia).
    destruct (select_Some player turn (children player fuel bd turn)) as (r & Hr & Hin).
    { now apply children_nonempty. }
    rewrite Hr. exists r. split; [reflexivity|].
    apply elem_of_children in Hin. destruct Hin as (i & Hi & Hg & ->). simpl.
    split; [|eauto].
    destruct (IH (set bd i (Some turn)) (next_turn player turn)) as (n & Hn & Hrange & _).
    + rewrite length_set; lia.
    + pose proof (count_empty_set bd i turn Hi Hg). lia.
    + unfold score_of. now rewrite Hn.
Qed.

Lemma minimax_score_range_witness :
  exists n,
    minimax X 7 threat_board O = Ret (Some n, threat_board) /\
    (score n = (-1)%Z \/ score n = 0%Z \/ score n = 1%Z) /\
    match checkWinner threat_board with
    | Win m _ => index n = None /\ score n = (if decide (m = X) then 1 else -1)%Z
    | Draw => index n = None /\ score n = 0%Z
    | InProgress => exists i, index n = Some i /\ i < 9 /\ get threat_board i = None
    end.
Proof.
  apply (minimax_score_range X 7 threat_board O).
  - reflexivity.
  - vm_compute. lia.
Defined.

(** ** The game component *)

Lemma elem_of_empty_indices (b : board) i :
  i ∈ empty_indices b <-> i < length b /\ get b i = None.
Proof.
  unfold empty_indices. rewrite list_elem_of_omap. split.
  - intros (x & Hx & Hid). apply elem_of_lookup_imap in Hx.
    destruct Hx as (k & c & -> & Hk). simpl in Hid.
    destruct c as [m|]; simpl in Hid; [discriminate|]. injection Hid as ->.
    split; [apply lookup_lt_is_Some; eauto|]. unfold get. now rewrite Hk.
  - intros [Hi Hg]. exists (Some i). split; [|reflexivity].
    apply elem_of_lookup_imap. exists i, None. split; [reflexivity|].
    rewrite (get_in_range b i Hi). now rewrite Hg.
Qed.

Lemma lookup_empty_indices (b : board) r k :
  empty_indices b !! r = Some k -> k < length b /\ get b k = None.
Proof.
  intros Hr. apply elem_of_empty_indices, list_elem_of_lookup. eauto.
Qed.

Lemma empty_indices_nil (b : board) :
  length (empty_indices b) = 0 <-> forall i, i < length b -> get b i <> None.
Proof.
  split.
  - intros Hnil i Hi Hg.
    assert (Hin : i ∈ empty_indices b) by (apply elem_of_empty_indices; auto).
    destruct (empty_indices b); [inversion Hin|discriminate].
  - intros Hfull. destruct (empty_indices b) as [|k rest] eqn:E; [reflexivity|].
    exfalso. assert (Hin : k ∈ empty_indices b) by (rewrite E; left).
    apply elem_of_empty_indices in Hin. destruct Hin as [Hk Hg]. exact (Hfull k Hk Hg).
Qed.

Lemma finished_false (s : game) :
  finished s = false <-> checkWinner (st_board s) = InProgress.
Proof.
  unfold finished. destruct (checkWinner (st_board s)); split; congruence.
Qed.

Lemma ai_due_true (s : game) :
  ai_due s = true <->
  st_mode s = cpu /\ current s = st_aiPlaysAs s /\ checkWinner (st_board s) = InProgress.
Proof.
  unfold ai_due. rewrite !andb_true_iff, !bool_decide_eq_true, negb_true_iff, finished_false.
  tauto.
Qed.

(** What [handleClick] does when it does not return early. *)
Lemma handleClick_effective (i : nat) (s : game) :
  handleClick i s <> s ->
  get (st_board s) i = None /\
  checkWinner (st_board s) = InProgress /\
  ~ (st_mode s = cpu /\ current s = st_aiPlaysAs s) /\
  handleClick i s =
  {| st_board := set (st_board s) i (Some (current s));
     st_xIsNext := negb (st_xIsNext s);
     st_history := st_history s ++ [st_board s];
     st_mode := st_mode s;
     st_aiPlaysAs := st_aiPlaysAs s;
     st_scores := st_scores s |}.
Proof.
  unfold handleClick.
  destruct (truthy (get (st_board s) i)) eqn:Ht; simpl; [congruence|].
  destruct (finished s) eqn:Hf; simpl; [congruence|].
  destruct (bool_decide (st_mode s = cpu) && bool_decide (current s = st_aiPlaysAs s)) eqn:Hb;
    [congruence|].
  intros _. split; [now apply truthy_false|]. split; [now apply finished_false|].
  split; [|reflexivity].
  intros [Hm Hc]. rewrite andb_false_iff, !bool_decide_eq_false in Hb. tauto.
Qed.

(** What [makeAIMove] does when the effect runs it: the cell comes from
    [bestMove], never from the random draw. *)
Lemma makeAIMove_due (r : nat) (s : game) :
  length (st_board s) = 9 -> ai_due s = true ->
  exists i,
    bestMove (st_aiPlaysAs s) (st_board s) = Ret (Some i) /\
    i < 9 /\ get (st_board s) i = None /\
    makeAIMove r s =
    Ret {| st_board := set (st_board s) i (Some (st_aiPlaysAs s));
           st_xIsNext := negb (st_xIsNext s);
           st_history := st_history s ++ [st_board s];
           st_mode := st_mode s;
           st_aiPlaysAs := st_aiPlaysAs s;
           st_scores := st_scores s |}.
Proof.
  intros Hlen Hdue. apply ai_due_true in Hdue. destruct Hdue as (_ & _ & Hp).
  destruct (bestMove_root (st_aiPlaysAs s) (st_board s) Hlen Hp) as (i & Hb & Hi & Hg & _).
  exists i. split; [exact Hb|]. split; [exact Hi|]. split; [exact Hg|].
  unfold makeAIMove.
  assert (Hne : length (empty_indices (st_board s)) <> 0).
  { intros Hnil. rewrite empty_indices_nil in Hnil. apply (Hnil i); [lia|exact Hg]. }
  rewrite bool_decide_eq_false_2 by exact Hne.
  rewrite decide_False by discriminate. rewrite Hb, Hg. reflexivity.
Qed.




(** X5.  No handler overwrites a mark: a cell that is occupied keeps its
    content through [handleClick] and through [makeAIMove], whichever
    branch picks the cell and whatever the random draw. *)
Theorem handlers_keep_marks (s : game) (j : nat) :
  get (st_board s) j <> None ->
  (forall i, get (st_board (handleClick i s)) j = get (st_board s) j) /\
  (forall r s', makeAIMove r s = Ret s' -> get (st_board s') j = get (st_board s) j).
Proof.
  intros Hj. split.
  - intros i. destruct (decide (handleClick i s = s)) as [->|Hne]; [reflexivity|].
    apply handleClick_effective in Hne. destruct Hne as (Hg & _ & _ & ->). simpl.
    apply get_set_ne. congruence.
  - intros r s' Hm. unfold makeAIMove in Hm.
    destruct (bool_decide (length (empty_indices (st_board s)) = 0)); [congruence|].
    rewrite decide_False in Hm by discriminate.
    assert (Hdraw : forall idx, empty_indices (st_board s) !! r = idx ->
              get match idx with
                  | Some k => set (st_board s) k (Some (st_aiPlaysAs s))
                  | None => st_board s
                  end j = get (st_board s) j).
    { intros [k|] Hk; [|reflexivity]. apply lookup_empty_indices in Hk.
      apply get_set_ne. destruct Hk. congruence. }
    destruct (bestMove (st_aiPlaysAs s) (st_board s)) as [[k|]| |]; try discriminate.
    + destruct (truthy (get (st_board s) k)) eqn:Ht; injection Hm as <-; simpl.
      * now apply Hdraw.
      * apply truthy_false in Ht. apply get_set_ne. congruence.
    + injection Hm as <-. simpl. now apply Hdraw.
Qed.

Lemma handlers_keep_marks_witness :
  (forall i, get (st_board (handleClick i (handleClick 4 initial_game))) 4
             = get (st_board (handleClick 4 initial_game)) 4) /\
  (forall r s', makeAIMove r (handleClick 4 initial_game) = Ret s' ->
                get (st_board s') 4 = get (st_board (handleClick 4 initial_game)) 4).
Proof.
  apply (handlers_keep_marks (handleClick 4 initial_game) 4). discriminate.
Defined.



(** *** Counting marks *)

Lemma even_succ_negb (n : nat) : Nat.even (S n) = negb (Nat.even n).
Proof. rewrite Nat.even_succ. now rewrite <- Nat.negb_even. Qed.

Lemma mover_succ (n : nat) : mover (S n) = opponent (mover n).
Proof. unfold mover. rewrite even_succ_negb. now destruct (Nat.even n). Qed.

Lemma current_mover (s : game) :
  st_xIsNext s = Nat.even (length (st_history s)) ->
  current s = mover (length (st_history s)).
Proof. intros H. unfold current, mover. now rewrite H. Qed.

Lemma count_mark_insert (m : Mark) (b : board) i (c c' : cell) :
  b !! i = Some c ->
  count_mark m (<[i:=c']> b) + (if decide (c = Some m) then 1 else 0)
  = count_mark m b + (if decide (c' = Some m) then 1 else 0).
Proof.
  unfold count_mark. revert i. induction b as [|x b IH]; intros i Hi; [discriminate|].
  destruct i as [|i]; simpl in Hi |- *.
  - injection Hi as ->. rewrite !filter_cons.
    destruct (decide (c = Some m)), (decide (c' = Some m)); simpl; lia.
  - specialize (IH i Hi). rewrite !filter_cons.
    destruct (decide (x = Some m)); simpl; lia.
Qed.

Lemma count_mark_set (m m' : Mark) (b : board) i :
  i < length b -> get b i = None ->
  count_mark m' (set b i (Some m)) = count_mark m' b + (if decide (m = m') then 1 else 0).
Proof.
  intros Hi Hg. unfold set. rewrite decide_True by exact Hi.
  pose proof (count_mark_insert m' b i None (Some m)) as H.
  rewrite (get_in_range b i Hi), Hg in H. specialize (H eq_refl).
  rewrite decide_False in H by discriminate.
  destruct (decide (m = m')) as [->|Hne].
  - rewrite decide_True in H by reflexivity. lia.
  - rewrite decide_False in H by congruence. lia.
Qed.

Lemma count_marks_le (b : board) : count_mark X b + count_mark O b <= length b.
Proof.
  unfold count_mark. induction b as [|c b IH]; [reflexivity|].
  rewrite !filter_cons. simpl.
  destruct (decide (c = Some X)) as [->|HX].
  - rewrite decide_False by discriminate. simpl. lia.
  - destruct (decide (c = Some O)); simpl; lia.
Qed.

(** *** The positions a game goes through *)

Lemma position_ok_move (k : nat) (b : board) i :
  position_ok k b -> i < 9 -> get b i = None ->
  position_ok (S k) (set b i (Some (mover k))).
Proof.
  intros (Hlen & Hsum & HX) Hi Hg. unfold position_ok.
  rewrite length_set by lia. split; [exact Hlen|].
  rewrite !count_mark_set by (assumption || lia).
  rewrite even_succ_negb. unfold mover. revert HX.
  destruct (Nat.even k); simpl; intros HX; split; lia.
Qed.

Lemma game_ok_push (s : game) i :
  game_ok s -> i < 9 -> get (st_board s) i = None ->
  game_ok {| st_board := set (st_board s) i (Some (current s));
             st_xIsNext := negb (st_xIsNext s);
             st_history := st_history s ++ [st_board s];
             st_mode := st_mode s;
             st_aiPlaysAs := st_aiPlaysAs s;
             st_scores := st_scores s |}.
Proof.
  intros (Hpos & Hturn & Hhist) Hi Hg. unfold game_ok. simpl.
  rewrite length_app. simpl. replace (length (st_history s) + 1) with (S (length (st_history s))) by lia.
  split; [|split].
  - rewrite (current_mover s Hturn). now apply position_ok_move.
  - rewrite even_succ_negb. now rewrite Hturn.
  - intros k b Hk. destruct (decide (k < length (st_history s))) as [Hlt|Hge].
    + rewrite lookup_app_l in Hk by exact Hlt. now apply Hhist.
    + rewrite lookup_app_r in Hk by lia.
      destruct (k - length (st_history s)) as [|d] eqn:Hd; simpl in Hk; [|discriminate].
      injection Hk as <-. replace k with (length (st_history s)) by lia. exact Hpos.
Qed.

Lemma game_ok_undo (s : game) : game_ok s -> game_ok (undo s).
Proof.
  intros (Hpos & Hturn & Hhist). unfold undo.
  destruct (last (st_history s)) as [b|] eqn:Hl;
    [|exact (conj Hpos (conj Hturn Hhist))].
  apply last_Some in Hl. destruct Hl as [h Hh].
  unfold game_ok. simpl. rewrite Hh in *. rewrite length_app in *. simpl in *.
  replace (length h + 1 - 1) with (length h) by lia. rewrite take_app_length.
  replace (length h + 1) with (S (length h)) in Hturn by lia.
  rewrite even_succ_negb in Hturn.
  split; [|split].
  - apply Hhist. rewrite lookup_app_r by lia. now replace (length h - length h) with 0 by lia.
  - rewrite Hturn. apply negb_involutive.
  - intros k b' Hk. apply Hhist. rewrite lookup_app_l; [exact Hk|].
    apply lookup_lt_is_Some. eauto.
Qed.

Lemma game_ok_reset (full : bool) (s : game) : game_ok (resetBoard full s).
Proof.
  unfold game_ok, resetBoard. simpl. split; [|split].
  - repeat split.
  - reflexivity.
  - intros k b Hk. discriminate.
Qed.

Lemma game_ok_step (s s' : game) : game_ok s -> step s s' -> game_ok s'.
Proof.
  intros Hok Hstep. destruct Hstep as [s s' Hplay | m s | a s]; [|exact Hok|exact Hok].
  destruct Hplay as [i s Hi | r s s' Hdue Hm | s | full s].
  - destruct (decide (handleClick i s = s)) as [->|Hne]; [exact Hok|].
    apply handleClick_effective in Hne. destruct Hne as (Hg & _ & _ & ->).
    apply game_ok_push; [exact Hok| |exact Hg].
    destruct Hok as ((Hlen & _) & _). lia.
  - pose proof Hok as ((Hlen & _) & _).
    destruct (makeAIMove_due r s Hlen Hdue) as (i & _ & Hi & Hg & Hm').
    rewrite Hm in Hm'. injection Hm' as ->.
    apply ai_due_true in Hdue. destruct Hdue as (_ & <- & _).
    now apply game_ok_push.
  - now apply game_ok_undo.
  - apply game_ok_reset.
Qed.

(** X7.  In every state the component can reach from its initial state
    (clicks on the rendered cells, moves of the computer when the effect
    schedules them, Undo, the resets, changes of mode and of the
    computer's side), the board has nine cells, X has as many marks as O
    or one more, it is X's turn exactly when they have as many, and the
    undo history holds one board per mark on the board, so at most
    nine. *)
Theorem reachable_position (s : game) :
  rtc step initial_game s ->
  length (st_board s) = 9 /\
  count_mark O (st_board s) <= count_mark X (st_board s) <= count_mark O (st_board s) + 1 /\
  (st_xIsNext s = true <-> count_mark X (st_board s) = count_mark O (st_board s)) /\
  count_mark X (st_board s) + count_mark O (st_board s) = length (st_history s) /\
  length (st_history s) <= 9.
Proof.
  intros Hreach.
  assert (Hok : game_ok s).
  { revert s Hreach. apply rtc_ind_r.
    - apply (game_ok_reset false initial_game).
    - intros s1 s2 _ Hstep IH. exact (game_ok_step _ _ IH Hstep). }
  destruct Hok as ((Hlen & Hsum & HX) & Hturn & _).
  pose proof (count_marks_le (st_board s)) as Hle.
  rewrite Hturn. split; [exact Hlen|]. revert HX.
  destruct (Nat.even (length (st_history s))); intros HX;
    repeat split; try lia; try discriminate.
Qed.

Lemma reachable_position_witness :
  length (st_board (handleClick 4 initial_game)) = 9 /\
  count_mark O (st_board (handleClick 4 initial_game))
  <= count_mark X (st_board (handleClick 4 initial_game))
  <= count_mark O (st_board (handleClick 4 initial_game)) + 1 /\
  (st_xIsNext (handleClick 4 initial_game) = true <->
   count_mark X (st_board (handleClick 4 initial_game))
   = count_mark O (st_board (handleClick 4 initial_game))) /\
  count_mark X (st_board (handleClick 4 initial_game))
  + count_mark O (st_board (handleClick 4 initial_game))
  = length (st_history (handleClick 4 initial_game)) /\
  length (st_history (handleClick 4 initial_game)) <= 9.
Proof.
  apply (reachable_position (handleClick 4 initial_game)).
  apply rtc_once. apply step_play. apply (play_click 4 initial_game).
  simpl. lia.
Defined.

(** *** The computer does not lose *)

Lemma safe_for_push (ai : Mark) (s : game) i :
  safe_for ai s ->
  guarantees ai 0 (set (st_board s) i (Some (current s)))
             (mover (S (length (st_history s)))) ->
  i < 9 ->
  safe_for ai {| st_board := set (st_board s) i (Some (current s));
                 st_xIsNext := negb (st_xIsNext s);
                 st_history := st_history s ++ [st_board s];
                 st_mode := st_mode s;
                 st_aiPlaysAs := st_aiPlaysAs s;
                 st_scores := st_scores s |}.
Proof.
  intros (Hmode & Hai & Hturn & Hlen & Hg & Hhist) Hnew Hi. unfold safe_for. simpl.
  rewrite length_app. simpl.
  replace (length (st_history s) + 1) with (S (length (st_history s))) by lia.
  split; [exact Hmode|]. split; [exact Hai|]. split; [|split; [|split]].
  - rewrite even_succ_negb. now rewrite Hturn.
  - rewrite length_set; lia.
  - exact Hnew.
  - intros k b Hk. destruct (decide (k < length (st_history s))) as [Hlt|Hge].
    + rewrite lookup_app_l in Hk by exact Hlt. now apply Hhist.
    + rewrite lookup_app_r in Hk by lia.
      destruct (k - length (st_history s)) as [|d] eqn:Hd; simpl in Hk; [|discriminate].
      injection Hk as <-. replace k with (length (st_history s)) by lia. auto.
Qed.

Lemma safe_for_undo (ai : Mark) (s : game) : safe_for ai s -> safe_for ai (undo s).
Proof.
  intros Hs. pose proof Hs as (Hmode & Hai & Hturn & Hlen & Hg & Hhist). unfold undo.
  destruct (last (st_history s)) as [b|] eqn:Hl; [|exact Hs].
  apply last_Some in Hl. destruct Hl as [h Hh].
  unfold safe_for. simpl. rewrite Hh in *. rewrite length_app in *. simpl in *.
  replace (length h + 1 - 1) with (length h) by lia. rewrite take_app_length.
  replace (length h + 1) with (S (length h)) in Hturn by lia.
  rewrite even_succ_negb in Hturn.
  assert (Hb : (h ++ [b]) !! length h = Some b).
  { rewrite lookup_app_r by lia. now replace (length h - length h) with 0 by lia. }
  destruct (Hhist _ _ Hb) as [Hlenb Hgb].
  split; [exact Hmode|]. split; [exact Hai|]. split; [|split; [|split]].
  - rewrite Hturn. apply negb_involutive.
  - exact Hlenb.
  - exact Hgb.
  - intros k b' Hk. apply Hhist. rewrite lookup_app_l; [exact Hk|].
    apply lookup_lt_is_Some. eauto.
Qed.

Lemma safe_for_reset (full : bool) (s : game) :
  st_mode s = cpu -> safe_for (st_aiPlaysAs s) (resetBoard full s).
Proof.
  intros Hmode. unfold safe_for, resetBoard. simpl.
  split; [exact Hmode|]. split; [reflexivity|]. split; [reflexivity|].
  split; [reflexivity|]. split.
  - apply (empty_board_draw (st_aiPlaysAs s) X).
  - intros k b Hk. discriminate.
Qed.

Lemma safe_for_step (ai : Mark) (s s' : game) :
  safe_for ai s -> play_step s s' -> safe_for ai s'.
Proof.
  intros Hs Hplay. pose proof Hs as (Hmode & Hai & Hturn & Hlen & Hg & Hhist).
  destruct Hplay as [i s Hi | r s s' Hdue Hm | s | full s].
  - destruct (decide (handleClick i s = s)) as [->|Hne]; [exact Hs|].
    apply handleClick_effective in Hne. destruct Hne as (Hgi & Hp & Hnot & ->).
    assert (Hcur : current s = opponent ai).
    { destruct (mark_cases ai (current s)) as [Hc|Hc]; [|exact Hc].
      exfalso. apply Hnot. split; [exact Hmode|congruence]. }
    apply safe_for_push; [exact Hs| |lia].
    rewrite mover_succ, <- (current_mover s Hturn), Hcur, opponent_involutive.
    apply guarantees_theirs; try assumption; [|lia].
    now rewrite <- Hcur, (current_mover s Hturn).
  - destruct (makeAIMove_due r s Hlen Hdue) as (i & Hb & Hi & Hgi & Hm').
    rewrite Hm in Hm'. injection Hm' as ->.
    apply ai_due_true in Hdue. destruct Hdue as (_ & Hcur & Hp).
    replace (Some (st_aiPlaysAs s)) with (Some (current s)) by (now rewrite Hcur).
    apply safe_for_push; [exact Hs| |exact Hi].
    rewrite Hai in Hb, Hcur.
    destruct (bestMove_secures ai (st_board s) Hlen Hp) as (i' & Hb' & _ & _ & Hkeep).
    rewrite Hb in Hb'. injection Hb' as <-.
    rewrite mover_succ, <- (current_mover s Hturn), Hcur.
    apply Hkeep.
    assert (Hmv : mover (length (st_history s)) = ai)
      by (rewrite <- (current_mover s Hturn); exact Hcur).
    now rewrite Hmv in Hg.
  - now apply safe_for_undo.
  - rewrite <- Hai. apply safe_for_reset. exact Hmode.
Qed.

(** X8.  Against the computer, the user never wins: from a reset in CPU
    mode, whatever cells the user clicks and however often Undo and the
    resets are used, with the computer moving whenever the effect
    schedules it, every line [checkWinner] reports belongs to the
    computer's side. *)
Theorem computer_never_loses (full : bool) (s0 s : game) :
  st_mode s0 = cpu ->
  rtc play_step (resetBoard full s0) s ->
  forall m l, checkWinner (st_board s) = Win m l -> m = st_aiPlaysAs s0.
Proof.
  intros Hmode Hreach.
  assert (Hs : safe_for (st_aiPlaysAs s0) s).
  { revert s Hreach. apply rtc_ind_r.
    - now apply safe_for_reset.
    - intros s1 s2 _ Hstep IH. exact (safe_for_step _ _ _ IH Hstep). }
  intros m l Hw. destruct Hs as (_ & _ & _ & _ & Hg & _).
  pose proof (guarantees_Win _ _ _ _ m l Hg Hw) as Hv.
  unfold leaf_score in Hv. destruct (decide (m = st_aiPlaysAs s0)); [assumption|lia].
Qed.

Lemma makeAIMove_ai_first (r : nat) :
  makeAIMove r ai_first =
  Ret {| st_board := set (st_board ai_first) 0 (Some X);
         st_xIsNext := false;
         st_history := [st_board ai_first];
         st_mode := cpu;
         st_aiPlaysAs := X;
         st_scores := {| tally_X := 0; tally_O := 0; tally_draws := 0 |} |}.
Proof.
  destruct (makeAIMove_due r ai_first eq_refl eq_refl) as (i & Hb & _ & _ & Hm).
  change (st_aiPlaysAs ai_first) with X in Hb.
  change (st_board ai_first) with empty_board in Hb.
  rewrite bestMove_empty in Hb. injection Hb as <-. exact Hm.
Qed.

Lemma lost_game_reachable : rtc play_step ai_first lost_game.
Proof.
  eapply rtc_l; [apply (play_ai 0 ai_first _ eq_refl (makeAIMove_ai_first 0))|].
  eapply rtc_l; [apply (play_click 1); vm_compute; lia|].
  eapply rtc_l; [eapply (play_ai 0); [reflexivity|vm_compute; reflexivity]|].
  eapply rtc_l; [apply (play_click 6); vm_compute; lia|].
  eapply rtc_l; [eapply (play_ai 0); [reflexivity|vm_compute; reflexivity]|].
  eapply rtc_l; [apply (play_click 2); vm_compute; lia|].
  eapply rtc_l; [eapply (play_ai 0); [reflexivity|vm_compute; reflexivity]|].
  apply rtc_refl.
Qed.

Lemma computer_never_loses_witness : X = st_aiPlaysAs (setAiPlaysAs X initial_game).
Proof.
  apply (computer_never_loses false (setAiPlaysAs X initial_game) lost_game
           eq_refl lost_game_reachable X (3, 4, 5)).
  reflexivity.
Defined.

Lemma push_changes (s : game) (b : board) x :
  {| st_board := b; st_xIsNext := x; st_history := st_history s ++ [st_board s];
     st_mode := st_mode s; st_aiPlaysAs := st_aiPlaysAs s; st_scores := st_scores s |} <> s.
Proof.
  intros Heq. apply (f_equal (fun g => length (st_history g))) in Heq. simpl in Heq.
  rewrite length_app in Heq. simpl in Heq. lia.
Qed.

(** X13.  On a nine-cell board an unfinished game can always go on, and
    exactly one side can move it: either the computer is due, its move
    changes the state and every click is ignored meanwhile, or the
    computer is not due and a click on some empty cell places a mark.
    Once the game is over the computer is not due and every click is
    ignored. *)
Theorem game_never_stuck (s : game) :
  length (st_board s) = 9 ->
  (checkWinner (st_board s) = InProgress ->
   (ai_due s = true /\
    (exists s', s' <> s /\ forall r, makeAIMove r s = Ret s') /\
    forall i, handleClick i s = s)
   \/
   (ai_due s = false /\ exists i, i < 9 /\ handleClick i s <> s)) /\
  (checkWinner (st_board s) <> InProgress ->
   ai_due s = false /\ forall i, handleClick i s = s).
Proof.
  intros Hlen. split.
  - intros Hp. destruct (ai_due s) eqn:Hdue.
    + left. split; [reflexivity|]. split.
      * destruct (makeAIMove_due 0 s Hlen Hdue) as (i & Hb & _ & _ & Hm).
        eexists. split; [apply push_changes|].
        intros r. destruct (makeAIMove_due r s Hlen Hdue) as (i' & Hb' & _ & _ & Hm').
        rewrite Hb in Hb'. injection Hb' as <-. exact Hm'.
      * intros i. apply ai_due_true in Hdue. destruct Hdue as (Hmode & Hcur & _).
        unfold handleClick. destruct (truthy (get (st_board s) i) || finished s);
          [reflexivity|].
        now rewrite !bool_decide_eq_true_2.
    + right. split; [reflexivity|].
      destruct (InProgress_has_empty (st_board s) Hlen Hp) as (i & Hi & Hg).
      exists i. split; [exact Hi|]. unfold handleClick. rewrite Hg. simpl.
      rewrite (proj2 (finished_false s) Hp).
      unfold ai_due in Hdue. rewrite (proj2 (finished_false s) Hp) in Hdue.
      rewrite andb_true_r in Hdue. rewrite Hdue. apply push_changes.
  - intros Hover.
    assert (Hfin : finished s = true).
    { unfold finished. destruct (checkWinner (st_board s)); congruence. }
    split.
    + unfold ai_due. rewrite Hfin. apply andb_false_r.
    + intros i. unfold handleClick. rewrite Hfin. now rewrite orb_true_r.
Qed.

Lemma game_never_stuck_witness :
  (checkWinner (st_board initial_game) = InProgress ->
   (ai_due initial_game = true /\
    (exists s', s' <> initial_game /\ forall r, makeAIMove r initial_game = Ret s') /\
    forall i, handleClick i initial_game = initial_game)
   \/
   (ai_due initial_game = false /\ exists i, i < 9 /\ handleClick i initial_game <> initial_game)) /\
  (checkWinner (st_board initial_game) <> InProgress ->
   ai_due initial_game = false /\ forall i, handleClick i initial_game = initial_game).
Proof.
  apply (game_never_stuck initial_game). reflexivity.
Defined.

(** ** The calculator component *)

(** *** The sign button *)

Lemma skip_digits_split (r : str) :
  exists d, r = d ++ skip_digits r /\ forall c, c ∈ d -> is_digit c = true.
Proof.
  induction r as [|c r (d & Hd & Hall)]; simpl.
  - exists []. split; [reflexivity|]. intros c Hc. inversion Hc.
  - destruct (is_digit c) eqn:E.
    + exists (c :: d). split; [simpl; now f_equal|].
      intros c0 Hc0. apply elem_of_cons in Hc0. destruct Hc0 as [->|Hc0]; auto.
    + exists []. split; [reflexivity|]. intros c0 Hc0. inversion Hc0.
Qed.

Lemma is_digit_not_sign (c : N) : is_digit c = true -> c <> 45%N /\ c <> 46%N.
Proof.
  unfold is_digit. rewrite andb_true_iff, !N.leb_le. lia.
Qed.

Lemma last_elem_of {A} (l : list A) (x : A) : last l = Some x -> x ∈ l.
Proof.
  intros Hl. apply last_Some in Hl. destruct Hl as [l' ->].
  apply elem_of_app. right. left.
Qed.

Lemma last_is_Some {A} (l : list A) : l <> [] -> exists x, last l = Some x.
Proof.
  intros Hne. destruct (last l) as [x|] eqn:Hl; [eauto|].
  apply last_None in Hl. congruence.
Qed.

Lemma unsigned_to_end_shape (r : str) :
  unsigned_to_end r = true ->
  (exists c, last r = Some c /\ is_digit c = true) /\
  (forall c, c ∈ r -> c = 46%N \/ is_digit c = true).
Proof.
  unfold unsigned_to_end. destruct (skip_digits_split r) as (d & Hd & Hdig).
  destruct (skip_digits r) as [|c d2]; intros Hm.
  - rewrite app_nil_r in Hd. subst d.
    apply negb_true_iff, bool_decide_eq_false in Hm. split; [|auto].
    destruct (last_is_Some r Hm) as [c Hc]. exists c. split; [exact Hc|].
    apply Hdig. now apply last_elem_of.
  - rewrite !andb_true_iff in Hm. destruct Hm as [[Hc Hne] Hall].
    apply N.eqb_eq in Hc. subst c.
    apply negb_true_iff, bool_decide_eq_false in Hne.
    rewrite forallb_forall in Hall.
    assert (Hdig2 : forall c, c ∈ d2 -> is_digit c = true)
      by (intros c Hc; apply Hall; now apply list_elem_of_In).
    destruct (last_is_Some d2 Hne) as [c Hc]. split.
    + exists c. split; [|apply Hdig2; now apply last_elem_of].
      rewrite Hd, last_app. simpl. destruct d2 as [|c2 d2]; [congruence|].
      now rewrite last_cons, Hc.
    + intros c0 Hc0. rewrite Hd in Hc0. apply elem_of_app in Hc0.
      destruct Hc0 as [Hc0|Hc0]; [auto|].
      apply elem_of_cons in Hc0. destruct Hc0 as [->|Hc0]; auto.
Qed.

(** What the number pattern accepts: a digit at the end, only minus, dot
    and digits, and no minus after the first code unit. *)
Lemma number_to_end_shape (r : str) :
  number_to_end r = true ->
  (exists c, last r = Some c /\ is_digit c = true) /\
  (forall c, c ∈ r -> c = 45%N \/ c = 46%N \/ is_digit c = true) /\
  (forall c t, r = c :: t -> 45%N ∉ t).
Proof.
  unfold number_to_end, strip_minus. destruct r as [|c t].
  - intros Hm. discriminate.
  - destruct (c =? 45)%N eqn:E; intros Hm;
      apply unsigned_to_end_shape in Hm; destruct Hm as ((c0 & Hl & Hc0) & Hchars).
    + apply N.eqb_eq in E. subst c. split; [|split].
      * exists c0. split; [|exact Hc0]. destruct t; [discriminate|].
        now rewrite last_cons, Hl.
      * intros c Hc. apply elem_of_cons in Hc. destruct Hc as [->|Hc]; auto.
      * intros c t' [= _ <-] Hin. destruct (Hchars _ Hin) as [H|H]; [discriminate|].
        apply is_digit_not_sign in H. destruct H. congruence.
    + split; [eauto|]. split; [auto|].
      intros c' t' [= _ <-] Hin.
      destruct (Hchars 45%N ltac:(now right)) as [H|H]; [discriminate|].
      apply is_digit_not_sign in H. destruct H. congruence.
Qed.

Lemma lazy_head_sound (s h n : str) :
  lazy_head s = Some (h, n) -> s = h ++ n /\ number_to_end n = true.
Proof.
  revert h n. induction s as [|c t IH]; intros h n Hm; simpl in Hm; [discriminate|].
  destruct (number_to_end (c :: t)) eqn:E.
  - injection Hm as <- <-. auto.
  - destruct (line_terminator c); [discriminate|].
    destruct (lazy_head t) as [[h' n']|]; [|discriminate].
    injection Hm as <- <-. destruct (IH h' n' eq_refl) as [-> Hn]. auto.
Qed.

Lemma match_trailing_number_sound (s h n : str) :
  match_trailing_number s = Some (h, n) ->
  exists pre, s = pre ++ h ++ n /\ number_to_end n = true.
Proof.
  induction s as [|c t IH]; simpl.
  - discriminate.
  - destruct (number_to_end (c :: t)) eqn:E.
    + intros [= <- <-]. exists []. auto.
    + destruct (line_terminator c).
      * intros Hm. destruct (IH Hm) as (pre & -> & Hn). exists (c :: pre). auto.
      * destruct (lazy_head t) as [[h' n']|] eqn:Hl.
        -- intros [= <- <-]. apply lazy_head_sound in Hl. destruct Hl as [-> Hn].
           exists []. auto.
        -- intros Hm. destruct (IH Hm) as (pre & -> & Hn). exists (c :: pre). auto.
Qed.

(** A head free of line terminators, none of whose suffixes makes the
    number longer, is the head the lazy group takes. *)
Lemma lazy_head_complete (h n : str) :
  (forall c, c ∈ h -> line_terminator c = false) ->
  number_to_end n = true ->
  (forall h1 c h2, h = h1 ++ c :: h2 -> number_to_end (c :: h2 ++ n) = false) ->
  lazy_head (h ++ n) = Some (h, n).
Proof.
  intros Hlt Hn. induction h as [|c h IH]; intros Hshort.
  - simpl. destruct n as [|c t]; [discriminate|]. simpl. now rewrite Hn.
  - simpl. rewrite (Hshort [] c h eq_refl).
    rewrite (Hlt c) by left. rewrite IH; [reflexivity| |].
    + intros c0 Hc0. apply Hlt. now right.
    + intros h1 c0 h2 Hh. apply (Hshort (c :: h1) c0 h2). simpl. now f_equal.
Qed.

Lemma match_trailing_number_complete (h n : str) :
  (forall c, c ∈ h -> line_terminator c = false) ->
  number_to_end n = true ->
  (forall h1 c h2, h = h1 ++ c :: h2 -> number_to_end (c :: h2 ++ n) = false) ->
  match_trailing_number (h ++ n) = Some (h, n).
Proof.
  intros Hlt Hn Hshort.
  pose proof (lazy_head_complete h n Hlt Hn Hshort) as Hl.
  destruct (h ++ n); simpl in Hl |- *; [discriminate|].
  now rewrite Hl.
Qed.

Lemma toggle_sign_no_match (s : str) :
  s <> [] -> match_trailing_number s = None -> toggle_sign s = s.
Proof.
  intros Hne Hm. unfold toggle_sign. destruct s; [congruence|]. now rewrite Hm.
Qed.

Lemma toggle_sign_match (s h n : str) :
  s <> [] -> match_trailing_number s = Some (h, n) ->
  toggle_sign s =
  match n with
  | c :: rest =>
      if (c =? 45)%N then h ++ rest else h ++ [40%N] ++ [45%N] ++ n ++ [41%N]
  | [] => h ++ [40%N] ++ [45%N] ++ n ++ [41%N]
  end.
Proof.
  intros Hne Hm. unfold toggle_sign. destruct s; [congruence|]. now rewrite Hm.
Qed.

Lemma toggle_sign_no_digit (s : str) :
  s <> [] -> (forall c, last s = Some c -> is_digit c = false) -> toggle_sign s = s.
Proof.
  intros Hne Hlast. apply toggle_sign_no_match; [exact Hne|].
  destruct (match_trailing_number s) as [[h n]|] eqn:Hm; [|reflexivity].
  exfalso. apply match_trailing_number_sound in Hm. destruct Hm as (pre & -> & Hn).
  apply number_to_end_shape in Hn. destruct Hn as ((c & Hl & Hc) & _).
  assert (Hn : n <> []) by (intros ->; discriminate).
  specialize (Hlast c). rewrite !last_app, Hl in Hlast.
  rewrite (Hlast eq_refl) in Hc. discriminate.
Qed.

(** X9.  The sign button acts only on a number at the end of the text:
    on the empty text it writes a minus, and a text that does not end in
    a digit is left as it is. *)
Theorem toggle_sign_needs_trailing_digit :
  toggle_sign [] = [45%N] /\
  forall s : str, s <> [] -> (forall c, last s = Some c -> is_digit c = false) ->
                  toggle_sign s = s.
Proof. split; [reflexivity|]. exact toggle_sign_no_digit. Qed.

Lemma toggle_sign_needs_trailing_digit_witness :
  toggle_sign [49; 46]%N = [49; 46]%N.
Proof.
  apply (proj2 toggle_sign_needs_trailing_digit [49; 46]%N).
  - discriminate.
  - intros c [= <-]. reflexivity.
Defined.

(** X10.  When the number at the end of the text has a minus in front
    of it, the sign button deletes that minus, whatever stands before
    it: the text [3-5] becomes [35]. *)
Theorem toggle_sign_removes_minus (h d : str) :
  (forall c, c ∈ h -> line_terminator c = false) ->
  number_to_end (45%N :: d) = true ->
  toggle_sign (h ++ 45%N :: d) = h ++ d.
Proof.
  intros Hlt Hn.
  assert (Hm : match_trailing_number (h ++ 45%N :: d) = Some (h, 45%N :: d)).
  { apply match_trailing_number_complete; [exact Hlt|exact Hn|].
    intros h1 c h2 _.
    destruct (number_to_end (c :: h2 ++ 45%N :: d)) eqn:E; [|reflexivity].
    exfalso. apply number_to_end_shape in E. destruct E as (_ & _ & Hno).
    apply (Hno c _ eq_refl). apply elem_of_app. right. left. }
  rewrite (toggle_sign_match _ h (45%N :: d)); [reflexivity| |exact Hm].
  now destruct h.
Qed.

Lemma toggle_sign_removes_minus_witness :
  toggle_sign ([51]%N ++ 45%N :: [53]%N) = [51]%N ++ [53]%N.
Proof.
  apply (toggle_sign_removes_minus [51]%N [53]%N).
  - intros c Hc. apply list_elem_of_singleton in Hc. subst c. reflexivity.
  - reflexivity.
Defined.

(** X11.  A number without a minus at the end of the text, not preceded
    by a digit, a dot or a minus, is wrapped: [h n] becomes [h(-n)].
    Pressing the button again changes nothing, since the text now ends in
    a parenthesis. *)
Theorem toggle_sign_wraps (h n : str) :
  (forall c, c ∈ h -> line_terminator c = false) ->
  (forall c, last h = Some c -> c <> 45%N /\ c <> 46%N /\ is_digit c = false) ->
  number_to_end n = true ->
  (forall t, n <> 45%N :: t) ->
  toggle_sign (h ++ n) = h ++ [40; 45]%N ++ n ++ [41]%N /\
  toggle_sign (h ++ [40; 45]%N ++ n ++ [41]%N) = h ++ [40; 45]%N ++ n ++ [41]%N.
Proof.
  intros Hlt Hlast Hn Hpos. split.
  - assert (Hm : match_trailing_number (h ++ n) = Some (h, n)).
    { apply match_trailing_number_complete; [exact Hlt|exact Hn|].
      intros h1 c h2 Hh.
      destruct (number_to_end (c :: h2 ++ n)) eqn:E; [|reflexivity].
      exfalso. apply number_to_end_shape in E. destruct E as (_ & Hchars & _).
      destruct (last_is_Some (c :: h2) ltac:(discriminate)) as [c0 Hc0].
      assert (Hlh : last h = Some c0) by (rewrite Hh, last_app_cons; exact Hc0).
      destruct (Hlast c0 Hlh) as (H45 & H46 & Hd).
      assert (Hin : c0 ∈ c :: h2 ++ n).
      { change (c :: h2 ++ n) with ((c :: h2) ++ n). apply elem_of_app. left.
        now apply last_elem_of. }
      destruct (Hchars c0 Hin) as [H|[H|H]]; congruence. }
    assert (Hne : n <> []) by (intros ->; discriminate).
    rewrite (toggle_sign_match _ h n); [| |exact Hm].
    + destruct n as [|c t]; [congruence|].
      destruct (c =? 45)%N eqn:E; [|reflexivity].
      apply N.eqb_eq in E. subst c. exfalso. exact (Hpos t eq_refl).
    + destruct h; [exact Hne|discriminate].
  - apply toggle_sign_no_digit.
    + now destruct h.
    + intros c Hc. rewrite !app_assoc, last_snoc in Hc. injection Hc as <-. reflexivity.
Qed.

Lemma toggle_sign_wraps_witness :
  toggle_sign ([50; 43]%N ++ [51]%N) = [50; 43]%N ++ [40; 45]%N ++ [51]%N ++ [41]%N /\
  toggle_sign ([50; 43]%N ++ [40; 45]%N ++ [51]%N ++ [41]%N)
  = [50; 43]%N ++ [40; 45]%N ++ [51]%N ++ [41]%N.
Proof.
  apply (toggle_sign_wraps [50; 43]%N [51]%N).
  - intros c Hc. apply elem_of_cons in Hc. destruct Hc as [->|Hc]; [reflexivity|].
    apply list_elem_of_singleton in Hc. subst c. reflexivity.
  - intros c [= <-]. repeat split; discriminate.
  - reflexivity.
  - discriminate.
Defined.

(** *** The history *)

Section CalculatorProperties.

Variable evaluateExpr : bool -> str -> str.

Lemma history_ok_handleButton (v : str) (s : calc) :
  history_ok evaluateExpr (c_history s) ->
  history_ok evaluateExpr (c_history (handleButton evaluateExpr v s)).
Proof.
  intros Hok. unfold handleButton.
  destruct (decide (v = btn_C)); [exact Hok|].
  destruct (decide (v = btn_back)); [exact Hok|].
  destruct (decide (v = btn_eq)).
  - destruct (decide _) as [(He & Hm & Hn)|]; [|exact Hok]. cbn [c_history].
    destruct Hok as [Hlen Hrows]. split.
    + apply firstn_le_length.
    + intros i o Hin. apply elem_of_take in Hin. destruct Hin as (k & Hk & _).
      apply list_elem_of_lookup_2 in Hk. apply elem_of_cons in Hk.
      destruct Hk as [[= -> ->]|Hk]; [|now apply Hrows].
      repeat split; try assumption. eauto.
  - destruct (decide (v = btn_pm)); exact Hok.
Qed.

Lemma history_ok_step (s : calc) (e : calc_event) :
  history_ok evaluateExpr (c_history s) ->
  history_ok evaluateExpr (c_history (calc_step evaluateExpr s e)).
Proof.
  intros Hok. destruct e as [v|k|value|]; simpl; try exact Hok.
  - now apply history_ok_handleButton.
  - unfold handleKeyDown.
    destruct (decide (k = key_Enter)); [now apply history_ok_handleButton|].
    destruct (decide (k = key_Backspace)); [now apply history_ok_handleButton|].
    destruct k as [|c [|c' k]]; try exact Hok.
    destruct (bool_decide (c ∈ allowed) || is_letter c); exact Hok.
Qed.

(** X12.  Whatever is typed, clicked or pasted, and whatever
    [evaluateExpr] returns, the history never holds more than twenty
    rows, and every row pairs a text with the result [evaluateExpr] gave
    for it in one of the two angle modes; no row shows ["Error"],
    ["Math Error"] or an empty result. *)
Theorem calc_history_kept (events : list calc_event) :
  history_ok evaluateExpr
    (c_history (fold_left (calc_step evaluateExpr) events initial_calc)).
Proof.
  assert (Hgen : forall s, history_ok evaluateExpr (c_history s) ->
            history_ok evaluateExpr
              (c_history (fold_left (calc_step evaluateExpr) events s))).
  { induction events as [|e events IH]; intros s Hok; [exact Hok|].
    simpl. apply IH. now apply history_ok_step. }
  apply Hgen. split; [simpl; lia|]. intros i o Hin. inversion Hin.
Qed.

End CalculatorProperties.
